(** * prysm.psf: size, centroid, crop and encircled-energy metrics of a PSF

    A shallow embedding of [prysm/psf.py].  Floating-point samples are
    idealised as exact rationals ([Q]); a float that is [inf] or [nan] is the
    single extra value [NonFinite].  Python exceptions are values of [exn],
    and every function that can raise returns a [result]. *)

From Stdlib Require Import String Ascii ZArith QArith Qround Qabs List Sorted Bool Lia Lqa.
Import ListNotations.

Local Open Scope Q_scope.

(** ** Python runtime: exceptions, strings, indexing, slicing *)

Module Py.

Inductive exn : Type :=
| AttributeError (attr : string)          (* object has no attribute [attr] *)
| ValueError (msg : string)
| TypeError (msg : string)
| IndexError (idx : Z) (size : nat)       (* index out of bounds for the axis *)
| ConversionError.                        (* int() of nan or of inf *)

Inductive result (A : Type) : Type :=
| Ok (a : A)
| Raise (e : exn).

Arguments Ok {A} a.
Arguments Raise {A} e.

Definition bind {A B : Type} (m : result A) (k : A -> result B) : result B :=
  match m with
  | Ok a => k a
  | Raise e => Raise e
  end.

Definition is_ok {A : Type} (m : result A) : bool :=
  match m with Ok _ => true | Raise _ => false end.

(** A dynamically typed argument: a [str] or a number. *)
Inductive pyval : Type :=
| VStr (s : string)
| VNum (q : Q).

Definition lower_ascii (c : ascii) : ascii :=
  let n := nat_of_ascii c in
  if ((65 <=? n) && (n <=? 90))%nat then ascii_of_nat (n + 32) else c.

Fixpoint lower (s : string) : string :=
  match s with
  | EmptyString => EmptyString
  | String c t => String (lower_ascii c) (lower t)
  end.

(** [v.lower()]: only a [str] has the method. *)
Definition lower_method (v : pyval) : result pyval :=
  match v with
  | VStr s => Ok (VStr (lower s))
  | VNum _ => Raise (AttributeError "lower")
  end.

(** [v == 'lit'] for a string literal. *)
Definition eq_str (v : pyval) (lit : string) : bool :=
  match v with
  | VStr s => String.eqb s lit
  | VNum _ => false
  end.

(** [isinstance(v, numbers.Number)]. *)
Definition is_number (v : pyval) : bool :=
  match v with
  | VStr _ => false
  | VNum _ => true
  end.

(** [l[k]] on a one-dimensional array: negative indices count from the end. *)
Definition index {A : Type} (l : list A) (k : Z) : result A :=
  let n := Z.of_nat (length l) in
  let k' := (if k <? 0 then k + n else k)%Z in
  if ((0 <=? k') && (k' <? n))%Z then
    match nth_error l (Z.to_nat k') with
    | Some a => Ok a
    | None => Raise (IndexError k (length l))
    end
  else Raise (IndexError k (length l)).

(** One bound of a slice, clamped into [0, n]. *)
Definition clamp (n k : Z) : Z :=
  (if k <? 0 then Z.max 0 (k + n) else Z.min k n)%Z.

(** [l[lo:hi]]: never raises, truncates silently. *)
Definition slice {A : Type} (l : list A) (lo hi : Z) : list A :=
  let n := Z.of_nat (length l) in
  let lo' := clamp n lo in
  let hi' := clamp n hi in
  firstn (Z.to_nat (hi' - lo')) (skipn (Z.to_nat lo') l).

End Py.

Export Py.

Declare Scope result_scope.
Delimit Scope result_scope with result.
Notation "x <- m ;; k" := (bind m (fun x => k))
  (at level 61, m at next level, right associativity) : result_scope.
Notation "' pat <- m ;; k" := (bind m (fun x => match x with pat => k end))
  (at level 61, pat pattern, m at next level, right associativity) : result_scope.
Local Open Scope result_scope.

(** ** NumPy: floats, reductions, argmax *)

Module Np.

(** A float: a finite value or [inf]/[nan]. *)
Inductive npfloat : Type :=
| Fin (q : Q)
| NonFinite.

Definition is_fin (f : npfloat) : bool :=
  match f with Fin _ => true | NonFinite => false end.

(** Float division: a zero divisor gives [inf] or [nan], never an exception. *)
Definition fdiv (a b : Q) : npfloat :=
  if Qeq_bool b 0 then NonFinite else Fin (a / b).

Definition fadd (a b : npfloat) : npfloat :=
  match a, b with
  | Fin x, Fin y => Fin (x + y)
  | _, _ => NonFinite
  end.

Definition fsub (a b : npfloat) : npfloat :=
  match a, b with
  | Fin x, Fin y => Fin (x - y)
  | _, _ => NonFinite
  end.

Definition fmul (a b : npfloat) : npfloat :=
  match a, b with
  | Fin x, Fin y => Fin (x * y)
  | _, _ => NonFinite
  end.

(** [int(f)]: truncation toward zero; fails on [nan] and [inf]. *)
Definition py_int (f : npfloat) : result Z :=
  match f with
  | Fin q => Ok (Z.quot (Qnum q) (Z.pos (Qden q)))
  | NonFinite => Raise ConversionError
  end.

Definition array2 : Type := list (list Q).

(** [a.shape] of a two-dimensional array stored row by row. *)
Definition shape {A : Type} (a : list (list A)) : nat * nat :=
  (length a, length (hd [] a)).

(** Every row has the width [shape] reports. *)
Definition rect {A : Type} (a : list (list A)) : Prop :=
  Forall (fun row => length row = snd (shape a)) a.

Definition np_e : Q := 6121026514868073 # 2251799813685248.
Definition np_pi : Q := 884279719003555 # 281474976710656.

Definition Qgtb (a b : Q) : bool := negb (Qle_bool a b).

Definition qmax (a b : Q) : Q := if Qle_bool a b then b else a.

(** [a.max()] over the flattened array; a zero-size array has no maximum. *)
Definition np_max (a : array2) : result Q :=
  match concat a with
  | [] => Raise (ValueError "zero-size array to reduction operation maximum which has no identity")
  | v :: t => Ok (fold_left qmax t v)
  end.

(** [a > hm], elementwise. *)
Definition gt_mask (a : array2) (hm : Q) : list (list bool) :=
  map (map (fun v => Qgtb v hm)) a.

(** Linear scan of [np.argmax] on a boolean row: the first occurrence of the
    maximum, a later element wins only when strictly greater. *)
Fixpoint argmax_from (best : bool) (besti i : nat) (l : list bool) : nat :=
  match l with
  | [] => besti
  | b :: t =>
      if negb best && b then argmax_from b i (S i) t
      else argmax_from best besti (S i) t
  end.

Definition np_argmax (l : list bool) : nat :=
  match l with
  | [] => 0%nat
  | b :: t => argmax_from b 0 1 t
  end.

(** [np.argmax(m, axis=1)]: one index per row. *)
Definition argmax_axis1 (m : list (list bool)) : list nat :=
  map np_argmax m.

(** [m[:, ::-1]]. *)
Definition flip_axis1 {A : Type} (m : list (list A)) : list (list A) :=
  map (@rev A) m.

Definition sum_nat (l : list nat) : nat := fold_left Nat.add l 0%nat.

(** [idx.mean()] of an integer array: a float; [nan] for no elements. *)
Definition np_mean (l : list nat) : npfloat :=
  fdiv (inject_Z (Z.of_nat (sum_nat l))) (inject_Z (Z.of_nat (length l))).

Definition qsum (l : list Q) : Q := fold_right Qplus 0 l.

Definition nonzero (v : Q) : Prop := ~ v == 0.

Definition finite (f : npfloat) : Prop := is_fin f = true.

End Np.

Export Np.

(** ** prysm.psf *)

Module Psf.

Definition polar_grid : Type := (list Q * list Q * array2)%type.

Section EstimateSize.

(** The polar resampler of [prysm.coordinates], a collaborator outside this
    module: [(r, p, polar)] for the Cartesian samples [(x, y, data)]. *)
Variable uniform_cart_to_polar : list Q -> list Q -> array2 -> result polar_grid.

Definition unknown_metric : exn :=
  ValueError "unknown metric, use fwhm, 1/e, or 1/e^2".

Definition unknown_criteria : exn :=
  ValueError "unknown criteria, use first or last".

(** The threshold level selected by [metric] (lines 63-72). *)
Definition threshold (metric : pyval) (max_ : Q) : result Q :=
  if eq_str metric "fwhm" then Ok (max_ / 2)
  else if eq_str metric "1/e" then Ok (1 / np_e * max_)
  else if eq_str metric "1/e^2" then Ok (1 / (np_e ^ 2) * max_)
  else if is_number metric then
    match metric with VNum m => Ok m | VStr _ => Raise unknown_metric end
  else Raise unknown_metric.

(** [divmod(meanidx, 1)] on a float. *)
Definition divmod1 (f : npfloat) : npfloat * npfloat :=
  match f with
  | Fin m => (Fin (inject_Z (Qfloor m)), Fin (m - inject_Z (Qfloor m)))
  | NonFinite => (NonFinite, NonFinite)
  end.

(** Line 77: [meanidx] of the [first] branch. *)
Definition meanidx_first (mask : list (list bool)) : npfloat :=
  np_mean (argmax_axis1 mask).

(** Lines 80-81: [meanidx] of the [last] branch. *)
Definition meanidx_last (mask : list (list bool)) : npfloat :=
  let meanidx := np_mean (argmax_axis1 (flip_axis1 mask)) in
  fsub (Fin (inject_Z (Z.of_nat (snd (shape mask))))) meanidx.

(** Lines 76-85: the integer and fractional parts the result is
    interpolated from. *)
Definition crossing (mask : list (list bool)) (criteria : string)
  : result (npfloat * npfloat) :=
  if String.eqb criteria "first" then
    Ok (divmod1 (meanidx_first mask))
  else if String.eqb criteria "last" then
    let '(lowidx, remainder) := divmod1 (meanidx_last mask) in
    Ok (lowidx, fmul remainder (Fin (-1)))
  else Raise unknown_criteria.

(** Lines 87-88 on the radius axis [r]. *)
Definition interpolate (r : list Q) (lowidx remainder : npfloat) : result Q :=
  lowidx <- py_int lowidx ;;
  r_low <- index r lowidx ;;
  r_1 <- index r 1 ;;
  match remainder with
  | Fin rem => Ok (r_low + rem * r_1)
  | NonFinite => Raise ConversionError
  end.

Definition estimate_size (x y : list Q) (data : array2) (metric : pyval)
  (criteria : string) : result Q :=
  let criteria := lower criteria in
  metric <- lower_method metric ;;
  '(r, p, polar) <- uniform_cart_to_polar x y data ;;
  max_ <- np_max polar ;;
  hm <- threshold metric max_ ;;
  let mask := gt_mask polar hm in
  '(lowidx, remainder) <- crossing mask criteria ;;
  interpolate r lowidx remainder.

End EstimateSize.

(** *** centroid and autocrop *)

(** Sum of the samples weighted by their index, counted from [i]. *)
Fixpoint wsum_from (i : nat) (l : list Q) : Q :=
  match l with
  | [] => 0
  | v :: t => inject_Z (Z.of_nat i) * v + wsum_from (S i) t
  end.

Definition wsum (l : list Q) : Q := wsum_from 0 l.

(** Modelled from the spec: [ndimage.center_of_mass] is SciPy's, reached
    through [prysm.mathops]; it is the standard moment calculation, per axis
    the sum over all samples of value times coordinate divided by the sum of
    the values, as (row, column). *)
Definition center_of_mass (data : array2) : npfloat * npfloat :=
  let total := qsum (map qsum data) in
  (fdiv (wsum (map qsum data)) total, fdiv (qsum (map wsum data)) total).

(** [int(np.ceil(c/2))]. *)
Definition ceil_half (c : nat) : Z := Qceiling (inject_Z (Z.of_nat c) / 2).

Definition centroid (data : array2) (dx : option Q) (unit : string)
  : result (npfloat * npfloat) :=
  let center := (ceil_half (fst (shape data)), ceil_half (snd (shape data))) in
  let com := center_of_mass data in
  if negb (String.eqb unit "spatial") then Ok com
  else
    match dx with
    | None => Raise (TypeError "unsupported operand type(s) for *: 'NoneType' and 'float'")
    | Some dx =>
        Ok (fmul (Fin dx) (fsub (fst com) (Fin (inject_Z (fst center)))),
            fmul (Fin dx) (fsub (snd com) (Fin (inject_Z (snd center)))))
    end.

(** [data[y_l:y_h, x_l:x_h]]. *)
Definition slice2 (data : array2) (y_l y_h x_l x_h : Z) : array2 :=
  map (fun row => slice row x_l x_h) (slice data y_l y_h).

Definition autocrop (data : array2) (px : Z) : result array2 :=
  com <- centroid data None "pixels" ;;
  cy <- py_int (fst com) ;;
  cx <- py_int (snd com) ;;
  let w := (px / 2)%Z in
  let aoi_y_l := (cy - w)%Z in
  let aoi_y_h := (aoi_y_l + w)%Z in
  let aoi_x_l := (cx - w)%Z in
  let aoi_x_h := (aoi_x_l + w)%Z in
  Ok (slice2 data aoi_y_l aoi_y_h aoi_x_l aoi_x_h).

(** *** encircled energy *)

(** What [mtf_from_psf] returns: the frequency axes and the MTF samples. *)
Record MTF : Type := { mtf_x : list Q; mtf_y : list Q; mtf_data : array2 }.

Inductive radius_arg : Type :=
| RNum (r : Q)
| RIter (rs : list Q).

Inductive ee_out : Type :=
| EScalar (v : npfloat)
| EArray (vs : list npfloat).

Definition map2 {A B C : Type} (f : A -> B -> C) (a : list A) (b : list B)
  : list C :=
  map (fun p => f (fst p) (snd p)) (combine a b).

(** An elementwise binary operation on two arrays of one shape. *)
Definition map2d {A B C : Type} (f : A -> B -> C) (a : list (list A))
  (b : list (list B)) : list (list C) :=
  map2 (map2 f) a b.

(** [np.meshgrid(x, y)]: both of shape [(len(y), len(x))]. *)
Definition meshgrid (x y : list Q) : array2 * array2 :=
  (map (fun _ => x) y, map (fun v => map (fun _ => v) x) y).

(** [a[i, j]]. *)
Definition index2 (a : array2) (i j : Z) : result Q :=
  row <- index a i ;;
  index row j.

Definition fsum (l : list npfloat) : npfloat := fold_right fadd (Fin 0) l.

Section EncircledEnergy.

(** Collaborators: the PSF to MTF conversion of [prysm.otf], NumPy's square
    root and the Bessel function J1 of the special-function engine. *)
Variable mtf_from_psf : array2 -> Q -> MTF.
Variable np_sqrt : Q -> Q.
Variable j1 : Q -> Q.

(** Lines 318-321: the radial frequency magnitude, zeros replaced. *)
Definition radial_frequency (mtf : MTF) : array2 :=
  let '(nx, ny) := meshgrid (mtf_x mtf) (mtf_y mtf) in
  let nu_p := map2d (fun a b => np_sqrt (a ^ 2 + b ^ 2)) nx ny in
  map (map (fun v => if Qeq_bool v 0 then 1 # 10000000000000000 else v)) nu_p.

(** Line 357. *)
Definition integration_fourier (radius : Q) (nu_p : array2)
  : list (list npfloat) :=
  map (map (fun v => fdiv (j1 (2 * np_pi * radius * v)) v)) nu_p.

Definition _encircled_energy_core (mtf_data : array2) (radius : Q)
  (nu_p : array2) (dx dy : Q) : npfloat :=
  let dat := map2d (fun a b => fmul (Fin a) b) mtf_data
               (integration_fourier radius nu_p) in
  fmul (fmul (fmul (Fin radius) (fsum (map fsum dat))) (Fin dx)) (Fin dy).

Definition encircled_energy (psf : array2) (dx : Q) (radius : radius_arg)
  : result ee_out :=
  let mtf := mtf_from_psf psf dx in
  let '(nx, ny) := meshgrid (mtf_x mtf) (mtf_y mtf) in
  let nu_p := radial_frequency mtf in
  ny10 <- index2 ny 1 0 ;;
  ny00 <- index2 ny 0 0 ;;
  nx01 <- index2 nx 0 1 ;;
  nx00 <- index2 nx 0 0 ;;
  let dnx := ny10 - ny00 in
  let dny := nx01 - nx00 in
  match radius with
  | RIter rs =>
      let out :=
        fold_left
          (fun out r =>
             let v := _encircled_energy_core (mtf_data mtf) (r / 1000) nu_p dnx dny in
             out ++ [v])
          rs [] in
      Ok (EArray out)
  | RNum r =>
      Ok (EScalar (_encircled_energy_core (mtf_data mtf) (r / 1000) nu_p dnx dny))
  end.

End EncircledEnergy.

(** *** fwhm, one_over_e, one_over_e2 *)

Section SizeWrappers.

Variable uniform_cart_to_polar : list Q -> list Q -> array2 -> result polar_grid.

(** Line 112: the native result is a radius, doubled into a full width. *)
Definition fwhm (x y : list Q) (data : array2) (criteria : string) : result Q :=
  v <- estimate_size uniform_cart_to_polar x y data (VStr "fwhm") criteria ;;
  Ok (v * 2).

Definition one_over_e (x y : list Q) (psf : array2) (criteria : string)
  : result Q :=
  estimate_size uniform_cart_to_polar x y psf (VStr "1/e") criteria.

Definition one_over_e2 (x y : list Q) (psf : array2) (criteria : string)
  : result Q :=
  estimate_size uniform_cart_to_polar x y psf (VStr "1/e^2") criteria.

End SizeWrappers.

(** Lines 80-81 on one row: [mask.shape[1] - argmax(row[::-1])], the column
    the 'last' branch reads for that row. *)
Definition last_forward_index (row : list Q) (hm : Q) : nat :=
  (length row - np_argmax (rev (map (fun v => Qgtb v hm) row)))%nat.

(** *** airydisk and the analytic encircled energy *)

(** [a / b] for a float [a]: [inf] and [nan] stay as they are. *)
Definition fdivf (a : npfloat) (b : Q) : npfloat :=
  match a with
  | Fin x => fdiv x b
  | NonFinite => NonFinite
  end.

(** [abs(a)]. *)
Definition fabs (a : npfloat) : npfloat :=
  match a with
  | Fin x => Fin (Qabs x)
  | NonFinite => NonFinite
  end.

(** [a ** 2]. *)
Definition fsquare (a : npfloat) : npfloat := fmul a a.

Section Airy.

(** Collaborators: [jinc] of [prysm.mathops] and the Bessel functions J0 and
    J1 of the special-function engine, on floats. *)
Variable jinc : npfloat -> npfloat.
Variable special_j0 : npfloat -> npfloat.
Variable special_j1 : npfloat -> npfloat.

(** Lines 289-290, elementwise over the radii. *)
Definition airydisk (unit_r : list Q) (fno wavelength : Q) : list npfloat :=
  map (fun r =>
         let u_eff := fdivf (fdivf (Fin (r * np_pi)) wavelength) fno in
         fsquare (fabs (fmul (Fin 2) (jinc u_eff))))
      unit_r.

(** Lines 380-381, elementwise over the points. *)
Definition _analytical_encircled_energy (fno wavelength : Q) (points : list Q)
  : list npfloat :=
  map (fun pt =>
         let p := fdivf (fdivf (Fin (pt * np_pi)) fno) wavelength in
         fsub (fsub (Fin 1) (fsquare (special_j0 p))) (fsquare (special_j1 p)))
      points.

End Airy.

End Psf.

Export Psf.

(** ** The specification's reading, for comparison with the code *)

Module Spec.

(** The enumerated metrics and criteria, matched case-insensitively. *)
Definition known_metric (s : string) : bool :=
  let m := lower s in
  String.eqb m "fwhm" || String.eqb m "1/e" || String.eqb m "1/e^2".

Definition known_criteria (s : string) : bool :=
  let c := lower s in
  String.eqb c "first" || String.eqb c "last".

(** Index of the first [True], 0 when there is none. *)
Fixpoint first_true (l : list bool) : nat :=
  match l with
  | [] => 0%nat
  | b :: t =>
      if b then 0%nat
      else if existsb (fun c => c) t then S (first_true t) else 0%nat
  end.

(** Under the contract [polar[i,j]] = value at [(r[i], p[j])]: the samples of
    angle [j] along increasing radius. *)
Definition angle_slice (j : nat) (polar : array2) : list Q :=
  map (fun row => nth j row 0) polar.

(** Section 4.1 step 4 under that contract: per angle the index of the first
    radius above [hm], averaged over the angles. *)
Definition per_angle_first_radius_mean (polar : array2) (hm : Q) : npfloat :=
  np_mean
    (map (fun j => first_true (map (fun v => Qgtb v hm) (angle_slice j polar)))
       (seq 0 (snd (shape polar)))).


(** [k] is where a scan of [row] first exceeds [hm], or 0 when it never does. *)
Definition first_crossing (row : list Q) (hm : Q) (k : nat) : Prop :=
  ((exists v, nth_error row k = Some v /\ hm < v) /\
   forall j v, (j < k)%nat -> nth_error row j = Some v -> v <= hm)
  \/ (k = 0%nat /\ forall v, In v row -> v <= hm).

(** [k] is the last index of [row] above [hm]. *)
Definition last_crossing (row : list Q) (hm : Q) (k : nat) : Prop :=
  (exists v, nth_error row k = Some v /\ hm < v) /\
  forall j v, (k < j)%nat -> nth_error row j = Some v -> v <= hm.

(** A two-dimensional array unchanged by mirroring either axis. *)
Definition symmetric (data : array2) : Prop :=
  rev data = data /\ Forall (fun row => rev row = row) data.

(** A row that ends above the threshold, or never exceeds it. *)
Definition no_outer_edge (hm : Q) (row : list Q) : Prop :=
  (exists init v, row = init ++ [v] /\ hm < v) \/ (forall v, In v row -> v <= hm).

End Spec.

(** ** Sample inputs *)

Module Examples.

(** A resampler whose answer is the grid [g]. *)
Definition resampled (g : polar_grid) : list Q -> list Q -> array2 -> result polar_grid :=
  fun _ _ _ => Ok g.

Definition axis3 : list Q := [-1; 0; 1].
Definition axis4 : list Q := [-3; -1; 1; 3].

Definition peak3 : array2 := [[1; 2; 1]; [2; 4; 2]; [1; 2; 1]].
Definition peak4 : array2 :=
  [[1; 2; 2; 1]; [2; 4; 4; 2]; [2; 4; 4; 2]; [1; 2; 2; 1]].

(** A profile falling from the centre, the same at both angles; rows are
    angles, columns radii. *)
Definition falling_by_angle : polar_grid :=
  ([0; 1; 2; 3], [0; 1], [[4; 3; 2; 1]; [4; 3; 2; 1]]).

(** The same profile with rows as radii and columns as angles. *)
Definition falling_by_radius : polar_grid :=
  ([0; 1; 2; 3], [0; 1], [[4; 4]; [3; 3]; [2; 2]; [1; 1]]).

(** Two radii, two angles: angle 0 is dark, angle 1 bright at every radius. *)
Definition one_bright_angle : polar_grid :=
  ([0; 1], [0; 1], [[0; 1]; [0; 1]]).


(** A 5 x 5 array with a single peak at its centre sample. *)
Definition data5 : array2 :=
  [[0; 0; 0; 0; 0];
   [0; 0; 0; 0; 0];
   [0; 0; 1; 0; 0];
   [0; 0; 0; 0; 0];
   [0; 0; 0; 0; 0]].

Definition grid3 : MTF :=
  {| mtf_x := [-1; 0; 1]; mtf_y := [-1; 0; 1];
     mtf_data := [[0; 1 # 2; 0]; [1 # 2; 1; 1 # 2]; [0; 1 # 2; 0]] |}.

(** Stand-ins for the collaborators of [encircled_energy]: a conversion that
    answers [grid3], the leading term x/2 of J1, and a rational stand-in for
    the square root. *)
Definition mtf_on_grid3 : array2 -> Q -> MTF := fun _ _ => grid3.

(** The MTF of a single-sample PSF: one frequency on each axis. *)
Definition grid1 : MTF := {| mtf_x := [0]; mtf_y := [0]; mtf_data := [[1]] |}.
Definition mtf_on_grid1 : array2 -> Q -> MTF := fun _ _ => grid1.
Definition j1_leading_term (q : Q) : Q := q / 2.
Definition sqrt_stand_in (q : Q) : Q := (q + 1) / 2.

(** Stand-ins for the Bessel collaborators on floats: the leading terms
    1, x/2 and 1/2 of J0, J1 and jinc. *)
Definition j0_leading_term (f : npfloat) : npfloat :=
  match f with Fin _ => Fin 1 | NonFinite => NonFinite end.
Definition j1_float_leading_term (f : npfloat) : npfloat :=
  match f with Fin q => Fin (q / 2) | NonFinite => NonFinite end.
Definition jinc_leading_term (f : npfloat) : npfloat :=
  match f with Fin _ => Fin (1 # 2) | NonFinite => NonFinite end.

(** An image with no light in it. *)
Definition dark3 : array2 := [[0; 0; 0]; [0; 0; 0]; [0; 0; 0]].

(** A polar array for [axis3]-sized grids: three angles, three radii. *)
Definition ring_by_angle : polar_grid :=
  ([0; 1; 2], [0; 1; 2], [[1; 4; 1]; [1; 4; 4]; [1; 4; 1]]).

(** A steep profile on five radii, the same at both angles. *)
Definition steep_by_angle : polar_grid :=
  ([0; 1; 2; 3; 4], [0; 1], [[8; 4; 2; 0; 0]; [8; 4; 2; 0; 0]]).

(** The same grid with nothing on it, and with a flat field. *)
Definition dark_by_angle : polar_grid :=
  ([0; 1; 2], [0; 1; 2], [[0; 0; 0]; [0; 0; 0]; [0; 0; 0]]).
Definition flat_by_angle : polar_grid :=
  ([0; 1; 2], [0; 1; 2], [[3; 3; 3]; [3; 3; 3]; [3; 3; 3]]).

End Examples.

(** ** Facts about the runtime model *)

Section RuntimeFacts.

Lemma index_in_range {A : Type} (l : list A) (k : nat) (a : A) :
  nth_error l k = Some a -> index l (Z.of_nat k) = Ok a.
Proof.
  intros H.
  assert (Hlt : (k < length l)%nat) by (apply nth_error_Some; congruence).
  unfold index.
  destruct (Z.ltb_spec (Z.of_nat k) 0) as [Hneg | _]; [lia |].
  destruct (Z.leb_spec 0 (Z.of_nat k)) as [_ | Hneg]; [| lia].
  destruct (Z.ltb_spec (Z.of_nat k) (Z.of_nat (length l))) as [_ | Hge]; [| lia].
  simpl. rewrite Nat2Z.id, H. reflexivity.
Qed.

Lemma py_int_inject_Z (z : Z) : py_int (Fin (inject_Z z)) = Ok z.
Proof. simpl. rewrite Z.quot_1_r. reflexivity. Qed.

Lemma Qgtb_true (a b : Q) : Qgtb a b = true <-> b < a.
Proof.
  unfold Qgtb. rewrite negb_true_iff. split.
  - intros H. apply Qnot_le_lt. intros Hle.
    apply Qle_bool_iff in Hle. congruence.
  - intros H. destruct (Qle_bool a b) eqn:E; [| reflexivity].
    apply Qle_bool_iff in E. exfalso. apply (Qlt_not_le _ _ H E).
Qed.

Lemma Qgtb_false (a b : Q) : Qgtb a b = false <-> a <= b.
Proof.
  unfold Qgtb. rewrite negb_false_iff. apply Qle_bool_iff.
Qed.

End RuntimeFacts.

(** ** estimate_size: argument checking *)

Section EstimateSizeErrors.

Variable ucp : list Q -> list Q -> array2 -> result polar_grid.

Lemma threshold_unknown (s : string) (max_ : Q) :
  Spec.known_metric s = false ->
  threshold (VStr (lower s)) max_ = Raise unknown_metric.
Proof.
  unfold Spec.known_metric, threshold, eq_str, is_number.
  intros H.
  apply orb_false_iff in H as [H H3].
  apply orb_false_iff in H as [H1 H2].
  rewrite H1, H2, H3. reflexivity.
Qed.

Lemma threshold_known (s : string) (max_ : Q) :
  Spec.known_metric s = true ->
  exists hm, threshold (VStr (lower s)) max_ = Ok hm.
Proof.
  unfold Spec.known_metric, threshold, eq_str.
  intros H.
  destruct (String.eqb (lower s) "fwhm"); [eexists; reflexivity |].
  destruct (String.eqb (lower s) "1/e"); [eexists; reflexivity |].
  destruct (String.eqb (lower s) "1/e^2"); [eexists; reflexivity |].
  discriminate.
Qed.

Lemma crossing_unknown (mask : list (list bool)) (c : string) :
  Spec.known_criteria c = false ->
  crossing mask (lower c) = Raise unknown_criteria.
Proof.
  unfold Spec.known_criteria, crossing.
  intros H. apply orb_false_iff in H as [H1 H2].
  rewrite H1, H2. reflexivity.
Qed.

Lemma np_max_nonempty (a : array2) :
  concat a <> [] -> exists m, np_max a = Ok m.
Proof.
  unfold np_max. destruct (concat a); [congruence |].
  intros _. eexists; reflexivity.
Qed.

(** C2.  The threshold selection would use a numeric [metric] as the
    level itself, but the call never gets there: [metric.lower()] on line 59
    raises [AttributeError] first, whatever the other arguments and the
    resampler are. *)
Theorem estimate_size_numeric_metric_raises
  (x y : list Q) (data : array2) (m : Q) (criteria : string) :
  (forall max_, threshold (VNum m) max_ = Ok m) /\
  estimate_size ucp x y data (VNum m) criteria = Raise (AttributeError "lower").
Proof.
  split.
  - intros max_. unfold threshold, eq_str, is_number. reflexivity.
  - unfold estimate_size, lower_method. cbn [bind]. reflexivity.
Qed.

(** C9.  A string metric outside fwhm, 1/e, 1/e^2 or a criteria outside
    first, last (both matched case-insensitively) makes [estimate_size] fail
    and return no value; once the resampler has returned a non-empty polar
    array the failure is the unknown-metric error for a bad metric, and the
    unknown-criteria error for a bad criteria with a good metric. *)
Theorem estimate_size_rejects_unknown
  (x y : list Q) (data : array2) (s criteria : string) :
  Spec.known_metric s = false \/ Spec.known_criteria criteria = false ->
  is_ok (estimate_size ucp x y data (VStr s) criteria) = false /\
  forall r p polar,
    ucp x y data = Ok (r, p, polar) ->
    concat polar <> [] ->
    estimate_size ucp x y data (VStr s) criteria =
      Raise (if Spec.known_metric s then unknown_criteria else unknown_metric).
Proof.
  intros Hbad. unfold estimate_size. simpl.
  split.
  - destruct (ucp x y data) as [[[r p] polar] | e]; simpl; [| reflexivity].
    destruct (np_max polar) as [mx | e]; simpl; [| reflexivity].
    destruct (Spec.known_metric s) eqn:Hm.
    + destruct Hbad as [Hbad | Hbad]; [discriminate |].
      destruct (threshold_known s mx Hm) as [hm ->]. simpl.
      rewrite (crossing_unknown _ _ Hbad). reflexivity.
    + rewrite (threshold_unknown s mx Hm). reflexivity.
  - intros r p polar Hres Hne. rewrite Hres. simpl.
    destruct (np_max_nonempty polar Hne) as [mx ->]. simpl.
    destruct (Spec.known_metric s) eqn:Hm.
    + destruct Hbad as [Hbad | Hbad]; [discriminate |].
      destruct (threshold_known s mx Hm) as [hm ->]. simpl.
      rewrite (crossing_unknown _ _ Hbad). reflexivity.
    + rewrite (threshold_unknown s mx Hm). reflexivity.
Qed.

End EstimateSizeErrors.

Lemma estimate_size_rejects_unknown_witness :
  (Spec.known_metric "FWHM " = false \/ Spec.known_criteria "Last" = false) /\
  is_ok (estimate_size (Examples.resampled Examples.falling_by_angle)
           Examples.axis4 Examples.axis4 Examples.peak4 (VStr "FWHM ") "Last")
    = false.
Proof.
  split; [left; reflexivity |].
  apply (estimate_size_rejects_unknown
           (Examples.resampled Examples.falling_by_angle)
           Examples.axis4 Examples.axis4 Examples.peak4 "FWHM " "Last").
  left; reflexivity.
Defined.

(** ** centroid: dispatch on the unit *)

Section CentroidUnit.

(** C10.  Any [unit] other than exactly 'spatial' returns the raw centre of
    mass, with or without [dx] and without an error; the spatial
    branch, the only one that needs [dx], is the one taken for 'spatial'. *)
Theorem centroid_unit_not_validated (data : array2) (dx : option Q) (unit : string) :
  unit <> "spatial"%string ->
  centroid data dx unit = Ok (center_of_mass data) /\
  is_ok (centroid data None "spatial") = false /\
  forall d, exists sy sx,
    centroid data (Some d) "spatial" = Ok (sy, sx) /\
    sy = fmul (Fin d) (fsub (fst (center_of_mass data))
                         (Fin (inject_Z (ceil_half (fst (shape data)))))) /\
    sx = fmul (Fin d) (fsub (snd (center_of_mass data))
                         (Fin (inject_Z (ceil_half (snd (shape data)))))).
Proof.
  intros Hunit. split; [| split].
  - unfold centroid. apply String.eqb_neq in Hunit. rewrite Hunit. reflexivity.
  - reflexivity.
  - intros d. eexists; eexists. split; [reflexivity |]. split; reflexivity.
Qed.

End CentroidUnit.

Lemma centroid_unit_not_validated_witness :
  "Spatial"%string <> "spatial"%string /\
  centroid Examples.data5 None "Spatial" = Ok (center_of_mass Examples.data5).
Proof.
  split; [discriminate |].
  apply (centroid_unit_not_validated Examples.data5 None "Spatial").
  discriminate.
Defined.

(** ** centroid of a symmetric array *)

Section CentroidSymmetric.

Lemma inject_Z_succ (n : nat) :
  inject_Z (Z.of_nat (S n)) == inject_Z (Z.of_nat n) + 1.
Proof. rewrite Nat2Z.inj_succ. unfold Z.succ. rewrite inject_Z_plus. reflexivity. Qed.

Lemma wsum_from_shift (i : nat) (l : list Q) :
  wsum_from i l == inject_Z (Z.of_nat i) * qsum l + wsum l.
Proof.
  unfold wsum. revert i. induction l as [| v t IH]; intros i; simpl.
  - ring.
  - rewrite (IH (S i)), (IH 1%nat), inject_Z_succ.
    change (inject_Z (Z.of_nat 1)) with 1. change (inject_Z (Z.of_nat 0)) with 0.
    ring.
Qed.

Lemma wsum_from_app (i : nat) (a b : list Q) :
  wsum_from i (a ++ b) == wsum_from i a + wsum_from (i + length a) b.
Proof.
  revert i. induction a as [| v t IH]; intros i; simpl.
  - rewrite Nat.add_0_r. ring.
  - rewrite IH. replace (S i + length t)%nat with (i + S (length t))%nat by lia.
    ring.
Qed.

(** The index-weighted sums of a list and of its mirror image add up to
    (length - 1) times the plain sum. *)
Lemma wsum_rev (l : list Q) :
  wsum l + wsum (rev l) == (inject_Z (Z.of_nat (length l)) - 1) * qsum l.
Proof.
  induction l as [| v t IH].
  - simpl. unfold wsum. simpl. ring.
  - simpl rev. unfold wsum in *. rewrite wsum_from_app. simpl wsum_from.
    rewrite (wsum_from_shift 1 t). rewrite length_rev.
    change (inject_Z (Z.of_nat 1)) with 1. change (inject_Z (Z.of_nat 0)) with 0.
    simpl length. rewrite inject_Z_succ. simpl qsum. unfold wsum.
    assert (E : wsum_from 0 (rev t) ==
                (inject_Z (Z.of_nat (length t)) - 1) * qsum t - wsum_from 0 t).
    { rewrite <- IH. ring. }
    rewrite E. ring.
Qed.

Lemma wsum_palindrome (l : list Q) :
  rev l = l ->
  2 * wsum l == (inject_Z (Z.of_nat (length l)) - 1) * qsum l.
Proof.
  intros H. rewrite <- wsum_rev. rewrite H. ring.
Qed.

Lemma col_moment_palindromes (data : array2) (m : nat) :
  Forall (fun row => length row = m) data ->
  Forall (fun row => rev row = row) data ->
  2 * qsum (map wsum data) ==
  (inject_Z (Z.of_nat m) - 1) * qsum (map qsum data).
Proof.
  induction data as [| row t IH]; intros Hlen Hpal; simpl.
  - ring.
  - inversion Hlen as [| ? ? Hl Hlt]; subst.
    inversion Hpal as [| ? ? Hp Hpt]; subst.
    specialize (IH Hlt Hpt).
    pose proof (wsum_palindrome row Hp) as Hrow.
    assert (E : 2 * (wsum row + qsum (map wsum t)) ==
                2 * wsum row + 2 * qsum (map wsum t)) by ring.
    rewrite E, Hrow, IH. ring.
Qed.

Lemma row_moment_symmetric (data : array2) :
  rev data = data ->
  2 * wsum (map qsum data) ==
  (inject_Z (Z.of_nat (length data)) - 1) * qsum (map qsum data).
Proof.
  intros H.
  rewrite (wsum_palindrome (map qsum data)).
  - rewrite length_map. reflexivity.
  - rewrite <- map_rev, H. reflexivity.
Qed.

Lemma fdiv_nonzero (a b : Q) : ~ b == 0 -> fdiv a b = Fin (a / b).
Proof.
  intros H. unfold fdiv. destruct (Qeq_bool b 0) eqn:E; [| reflexivity].
  apply Qeq_bool_iff in E. contradiction.
Qed.

Lemma half_of_moment (w t k : Q) : ~ t == 0 -> 2 * w == k * t -> w / t == k / 2.
Proof. intros Ht H. field_simplify_eq; [| exact Ht]. rewrite H. ring. Qed.

(** What [centroid] computes for an array symmetric about its geometric
    centre (with samples that do not sum to zero): the pixel-unit centroid is
    the centre index ((rows-1)/2, (cols-1)/2), and the spatial-unit value is,
    per axis, dx times its distance from [center]. *)
Theorem centroid_of_symmetric (data : array2) (dx : Q) :
  rect data ->
  Spec.symmetric data ->
  ~ qsum (map qsum data) == 0 ->
  exists cy cx sy sx,
    centroid data None "pixels" = Ok (Fin cy, Fin cx) /\
    cy == (inject_Z (Z.of_nat (fst (shape data))) - 1) / 2 /\
    cx == (inject_Z (Z.of_nat (snd (shape data))) - 1) / 2 /\
    centroid data (Some dx) "spatial" = Ok (Fin sy, Fin sx) /\
    sy == dx * (cy - inject_Z (ceil_half (fst (shape data)))) /\
    sx == dx * (cx - inject_Z (ceil_half (snd (shape data)))).
Proof.
  intros Hrect [Hrows Hcols] Htot.
  unfold centroid, center_of_mass. simpl String.eqb. simpl negb. cbv iota.
  rewrite !(fdiv_nonzero _ _ Htot).
  do 4 eexists. split; [reflexivity |].
  split; [| split; [| split; [reflexivity | split; reflexivity]]].
  - apply half_of_moment; [exact Htot |]. apply row_moment_symmetric, Hrows.
  - apply half_of_moment; [exact Htot |].
    apply col_moment_palindromes; [exact Hrect | exact Hcols].
Qed.

End CentroidSymmetric.

Lemma centroid_of_symmetric_witness :
  rect Examples.peak4 /\ Spec.symmetric Examples.peak4 /\
  ~ qsum (map qsum Examples.peak4) == 0 /\
  exists cy cx sy sx,
    centroid Examples.peak4 None "pixels" = Ok (Fin cy, Fin cx) /\
    cy == (inject_Z (Z.of_nat (fst (shape Examples.peak4))) - 1) / 2 /\
    cx == (inject_Z (Z.of_nat (snd (shape Examples.peak4))) - 1) / 2 /\
    centroid Examples.peak4 (Some (1 # 2)) "spatial" = Ok (Fin sy, Fin sx) /\
    sy == (1 # 2) * (cy - inject_Z (ceil_half (fst (shape Examples.peak4)))) /\
    sx == (1 # 2) * (cx - inject_Z (ceil_half (snd (shape Examples.peak4)))).
Proof.
  assert (Hrect : rect Examples.peak4) by (repeat constructor).
  assert (Hsym : Spec.symmetric Examples.peak4)
    by (split; [reflexivity | repeat constructor]).
  assert (Htot : ~ qsum (map qsum Examples.peak4) == 0)
    by (intro H; vm_compute in H; discriminate).
  split; [exact Hrect | split; [exact Hsym | split; [exact Htot |]]].
  exact (centroid_of_symmetric Examples.peak4 (1 # 2) Hrect Hsym Htot).
Defined.

(** C3.  The 5 x 5 array with a single peak at its centre sample is
    symmetric and its pixel-unit centroid is the centre index (2, 2); but
    [center] is ceil(5/2) = 3 on each axis, one sample past the centre
    sample, so for every sample spacing dx the spatial-unit centroid is
    (-dx, -dx), which is not (0, 0) unless dx is 0. *)
Theorem centroid_centred_peak_off_by_one (dx : Q) :
  Spec.symmetric Examples.data5 /\
  shape Examples.data5 = (5%nat, 5%nat) /\
  ceil_half 5 = 3%Z /\
  exists cy cx sy sx,
    centroid Examples.data5 None "pixels" = Ok (Fin cy, Fin cx) /\
    cy == 2 /\ cx == 2 /\
    centroid Examples.data5 (Some dx) "spatial" = Ok (Fin sy, Fin sx) /\
    sy == - dx /\ sx == - dx /\
    (~ dx == 0 -> ~ sy == 0 /\ ~ sx == 0).
Proof.
  assert (Hrect : rect Examples.data5) by (repeat constructor).
  assert (Hsym : Spec.symmetric Examples.data5)
    by (split; [reflexivity | repeat constructor]).
  assert (Htot : ~ qsum (map qsum Examples.data5) == 0)
    by (intro H; vm_compute in H; discriminate).
  split; [exact Hsym |]. split; [reflexivity |]. split; [reflexivity |].
  destruct (centroid_of_symmetric Examples.data5 dx Hrect Hsym Htot)
    as (cy & cx & sy & sx & Hpix & Hcy & Hcx & Hspa & Hsy & Hsx).
  change (fst (shape Examples.data5)) with 5%nat in Hcy, Hsy.
  change (snd (shape Examples.data5)) with 5%nat in Hcx, Hsx.
  change (ceil_half 5) with 3%Z in Hsy, Hsx.
  assert (Ecy : cy == 2) by (rewrite Hcy; reflexivity).
  assert (Ecx : cx == 2) by (rewrite Hcx; reflexivity).
  assert (Esy : sy == - dx) by (rewrite Hsy, Ecy; ring).
  assert (Esx : sx == - dx) by (rewrite Hsx, Ecx; ring).
  exists cy, cx, sy, sx.
  split; [exact Hpix |]. split; [exact Ecy |]. split; [exact Ecx |].
  split; [exact Hspa |]. split; [exact Esy |]. split; [exact Esx |].
  intros Hdx. split; intro H; apply Hdx.
  - rewrite Esy in H. lra.
  - rewrite Esx in H. lra.
Qed.

(** ** autocrop *)

Section Autocrop.

Lemma slice_length {A : Type} (l : list A) (lo hi : Z) :
  (0 <= lo <= hi)%Z -> (hi <= Z.of_nat (length l))%Z ->
  length (slice l lo hi) = Z.to_nat (hi - lo).
Proof.
  intros Hlo Hhi. unfold slice, clamp.
  destruct (Z.ltb_spec lo 0) as [H | _]; [lia |].
  destruct (Z.ltb_spec hi 0) as [H | _]; [lia |].
  rewrite length_firstn, length_skipn. lia.
Qed.

Lemma slice_incl {A : Type} (l : list A) (lo hi : Z) (a : A) :
  In a (slice l lo hi) -> In a l.
Proof.
  unfold slice. intros H.
  set (n := Z.to_nat (clamp (Z.of_nat (length l)) lo)) in *.
  set (k := Z.to_nat (clamp (Z.of_nat (length l)) hi
                      - clamp (Z.of_nat (length l)) lo)) in *.
  rewrite <- (firstn_skipn n l). apply in_or_app. right.
  rewrite <- (firstn_skipn k (skipn n l)). apply in_or_app. left. exact H.
Qed.

(** X1.  What the window is when the slice bounds are in range: its rows are
    [cy - px//2, cy), its columns [cx - px//2, cx), its side px//2. *)
Lemma autocrop_shape (data : array2) (px cy cx : Z) (fy fx : npfloat) :
  rect data ->
  center_of_mass data = (fy, fx) ->
  py_int fy = Ok cy -> py_int fx = Ok cx ->
  (0 < px / 2)%Z ->
  (px / 2 <= cy <= Z.of_nat (fst (shape data)))%Z ->
  (px / 2 <= cx <= Z.of_nat (snd (shape data)))%Z ->
  exists win,
    autocrop data px = Ok win /\
    win = slice2 data (cy - px / 2) cy (cx - px / 2) cx /\
    shape win = (Z.to_nat (px / 2), Z.to_nat (px / 2)).
Proof.
  intros Hrect Hcom Hy Hx Hw Hcy Hcx.
  unfold autocrop, centroid. simpl String.eqb. simpl negb. cbv iota.
  rewrite Hcom. simpl. rewrite Hy. simpl. rewrite Hx. simpl.
  replace (cy - px / 2 + px / 2)%Z with cy by lia.
  replace (cx - px / 2 + px / 2)%Z with cx by lia.
  eexists. split; [reflexivity |]. split; [reflexivity |].
  unfold slice2, shape. rewrite length_map.
  simpl fst in Hcy. simpl snd in Hcx.
  assert (Hrows : length (slice data (cy - px / 2) cy) = Z.to_nat (px / 2)).
  { rewrite slice_length by lia. f_equal. lia. }
  rewrite Hrows. f_equal.
  destruct (slice data (cy - px / 2) cy) as [| row rest] eqn:E.
  { simpl in Hrows. lia. }
  simpl. rewrite slice_length.
  - f_equal. lia.
  - lia.
  - assert (Hin : In row data).
    { apply (slice_incl data (cy - px / 2) cy). rewrite E. left. reflexivity. }
    unfold rect in Hrect. rewrite Forall_forall in Hrect.
    rewrite (Hrect row Hin). simpl. lia.
Qed.

(** C1 at a concrete input.  For the 5 x 5 array with its peak at the centre
    sample (centroid (2, 2), two samples from every edge) and px = 2, the
    window is data[1:2, 1:2]: its lower corner is at centroid - px//2, but
    its shape is (1, 1), not (2, 2); with px = 4 the shape is (2, 2), not
    (4, 4). *)
Theorem autocrop_window_side_is_half_px :
  (exists win,
     autocrop Examples.data5 2 = Ok win /\
     win = slice2 Examples.data5 1 2 1 2 /\
     shape win = (1%nat, 1%nat) /\ shape win <> (2%nat, 2%nat)) /\
  (exists win,
     autocrop Examples.data5 4 = Ok win /\
     win = slice2 Examples.data5 0 2 0 2 /\
     shape win = (2%nat, 2%nat) /\ shape win <> (4%nat, 4%nat)).
Proof.
  split; eexists; (split; [vm_compute; reflexivity |]);
    (split; [vm_compute; reflexivity |]);
    (split; [reflexivity | discriminate]).
Qed.

End Autocrop.

(** ** encircled_energy *)

Section EncircledEnergyFacts.

Variable mtf_from_psf : array2 -> Q -> MTF.
Variable np_sqrt : Q -> Q.
Variable j1 : Q -> Q.

Lemma fold_left_append {A B : Type} (f : A -> B) (l : list A) (acc : list B) :
  fold_left (fun out a => out ++ [f a]) l acc = acc ++ map f l.
Proof.
  revert acc. induction l as [| a t IH]; intros acc; simpl.
  - rewrite app_nil_r. reflexivity.
  - rewrite IH, <- app_assoc. reflexivity.
Qed.

Lemma map2_Forall {A B C : Type} (f : A -> B -> C) (P : C -> Prop)
  (R : B -> Prop) (a : list A) (b : list B) :
  (forall x y, R y -> P (f x y)) -> Forall R b -> Forall P (map2 f a b).
Proof.
  intros Hf. unfold map2. revert b.
  induction a as [| x a IH]; intros b Hb; simpl; [constructor |].
  destruct b as [| y b]; simpl; [constructor |].
  inversion Hb; subst. constructor; [apply Hf; assumption | apply IH; assumption].
Qed.

Lemma fsum_finite (l : list npfloat) : Forall finite l -> finite (fsum l).
Proof.
  unfold finite. induction 1 as [| f l Hf _ IH]; simpl; [reflexivity |].
  destruct f; [| discriminate]. destruct (fsum l); [reflexivity | discriminate].
Qed.

Lemma radial_frequency_nonzero (mtf : MTF) :
  Forall (Forall nonzero) (radial_frequency np_sqrt mtf).
Proof.
  unfold radial_frequency, meshgrid.
  apply Forall_map, Forall_forall. intros row _.
  apply Forall_map, Forall_forall. intros v _.
  unfold nonzero. destruct (Qeq_bool v 0) eqn:E.
  - intro H. discriminate H.
  - intro H. apply Qeq_bool_iff in H. congruence.
Qed.

Lemma integration_fourier_finite (radius : Q) (nu_p : array2) :
  Forall (Forall nonzero) nu_p ->
  Forall (Forall finite) (integration_fourier j1 radius nu_p).
Proof.
  intros H. unfold integration_fourier.
  apply Forall_map. eapply Forall_impl; [| exact H].
  intros row Hrow. apply Forall_map. eapply Forall_impl; [| exact Hrow].
  intros v Hv. unfold finite. rewrite fdiv_nonzero by exact Hv. reflexivity.
Qed.

Lemma core_finite (mtf_data : array2) (radius : Q) (nu_p : array2) (dx dy : Q) :
  Forall (Forall nonzero) nu_p ->
  finite (_encircled_energy_core j1 mtf_data radius nu_p dx dy).
Proof.
  intros H. unfold _encircled_energy_core.
  assert (Hsum : finite (fsum (map fsum
            (map2d (fun a b => fmul (Fin a) b) mtf_data
               (integration_fourier j1 radius nu_p))))).
  { apply fsum_finite, Forall_map. unfold map2d.
    apply (map2_Forall _ _ (Forall finite)).
    - intros row frow Hfrow. apply fsum_finite.
      apply (map2_Forall _ _ finite); [| exact Hfrow].
      intros a f Hf. destruct f; [reflexivity | discriminate Hf].
    - apply integration_fourier_finite, H. }
  unfold finite in *.
  destruct (fsum _); [reflexivity | discriminate Hsum].
Qed.

Lemma map2_const_r {A B C : Type} (f : A -> B -> C) (l : list A) (b : B) :
  map2 f l (map (fun _ => b) l) = map (fun a => f a b) l.
Proof.
  unfold map2. induction l as [| a t IH]; simpl; [reflexivity |].
  rewrite IH. reflexivity.
Qed.

Lemma map2d_meshgrid {C : Type} (f : Q -> Q -> C) (x y : list Q) :
  map2d f (map (fun _ => x) y) (map (fun v => map (fun _ => v) x) y) =
  map (fun yv => map (fun xv => f xv yv) x) y.
Proof.
  unfold map2d. induction y as [| yv t IH]; [reflexivity |].
  unfold map2 in *. simpl. rewrite IH. f_equal.
  apply (map2_const_r f x yv).
Qed.

(** [nu_p] entry by entry: row i, column j holds the magnitude of the
    frequency (x[j], y[i]), with 1e-16 in place of an exact zero. *)
Lemma radial_frequency_grid (mtf : MTF) :
  radial_frequency np_sqrt mtf =
  map (fun yv =>
         map (fun xv =>
                if Qeq_bool (np_sqrt (xv ^ 2 + yv ^ 2)) 0
                then 1 # 10000000000000000
                else np_sqrt (xv ^ 2 + yv ^ 2))
           (mtf_x mtf))
      (mtf_y mtf).
Proof.
  unfold radial_frequency, meshgrid. rewrite map2d_meshgrid, map_map.
  apply map_ext. intros yv. rewrite map_map. reflexivity.
Qed.

(** C8.  The [nu_p] that [encircled_energy] hands to the core has the shape
    of the frequency grid; its entry for the frequency (x[j], y[i]) is the
    magnitude sqrt(x[j]^2 + y[i]^2) when that is not zero and the constant
    1e-16 when it is exactly zero.  So every entry is nonzero, every
    quotient j1(2 pi radius nu_p) / nu_p of the core divides by a nonzero
    entry and is finite, and so is every value [encircled_energy] returns,
    for a number and for an iterable of radii. *)
Theorem encircled_energy_divisor_nonzero (psf : array2) (dx : Q) :
  let mtf := mtf_from_psf psf dx in
  let nu_p := radial_frequency np_sqrt mtf in
  (length nu_p = length (mtf_y mtf) /\
   Forall (fun row => length row = length (mtf_x mtf)) nu_p) /\
  (forall i j yv xv,
     nth_error (mtf_y mtf) i = Some yv ->
     nth_error (mtf_x mtf) j = Some xv ->
     exists row v,
       nth_error nu_p i = Some row /\ nth_error row j = Some v /\
       (np_sqrt (xv ^ 2 + yv ^ 2) == 0 -> v = 1 # 10000000000000000) /\
       (~ np_sqrt (xv ^ 2 + yv ^ 2) == 0 -> v = np_sqrt (xv ^ 2 + yv ^ 2))) /\
  Forall (Forall (fun v => ~ v == 0)) nu_p /\
  (forall radius i j row v,
     nth_error nu_p i = Some row -> nth_error row j = Some v ->
     ~ v == 0 /\
     exists frow,
       nth_error (integration_fourier j1 radius nu_p) i = Some frow /\
       nth_error frow j = Some (Fin (j1 (2 * np_pi * radius * v) / v))) /\
  (forall radius,
     Forall (Forall (fun f => is_fin f = true))
       (integration_fourier j1 radius nu_p)) /\
  (forall r v,
     encircled_energy mtf_from_psf np_sqrt j1 psf dx (RNum r) = Ok (EScalar v) ->
     (exists dnx dny,
        v = _encircled_energy_core j1 (mtf_data mtf) (r / 1000) nu_p dnx dny) /\
     is_fin v = true) /\
  (forall rs vs,
     encircled_energy mtf_from_psf np_sqrt j1 psf dx (RIter rs) = Ok (EArray vs) ->
     (exists dnx dny,
        vs = map (fun r => _encircled_energy_core j1 (mtf_data mtf) (r / 1000)
                             nu_p dnx dny) rs) /\
     Forall (fun f => is_fin f = true) vs).
Proof.
  intros mtf nu_p.
  pose proof (radial_frequency_nonzero mtf) as Hnz. fold nu_p in Hnz.
  pose proof (radial_frequency_grid mtf) as Hgrid. fold nu_p in Hgrid.
  split; [| split; [| split; [| split; [| split; [| split]]]]].
  - rewrite Hgrid. split; [apply length_map |].
    apply Forall_map, Forall_forall. intros yv _. apply length_map.
  - intros i j yv xv Hy Hx. rewrite Hgrid.
    eexists; eexists. split.
    { rewrite nth_error_map, Hy. reflexivity. }
    split.
    { rewrite nth_error_map, Hx. reflexivity. }
    split.
    + intros Hz. apply Qeq_bool_iff in Hz. rewrite Hz. reflexivity.
    + intros Hz. destruct (Qeq_bool (np_sqrt (xv ^ 2 + yv ^ 2)) 0) eqn:E;
        [| reflexivity].
      apply Qeq_bool_iff in E. contradiction.
  - exact Hnz.
  - intros radius i j row v Hrow Hv.
    assert (Hvnz : ~ v == 0).
    { rewrite Forall_forall in Hnz.
      pose proof (Hnz row (nth_error_In _ _ Hrow)) as Hr.
      rewrite Forall_forall in Hr. apply (Hr v (nth_error_In _ _ Hv)). }
    split; [exact Hvnz |].
    unfold integration_fourier. eexists. split.
    { rewrite nth_error_map, Hrow. reflexivity. }
    rewrite nth_error_map, Hv. simpl. rewrite (fdiv_nonzero _ _ Hvnz).
    reflexivity.
  - intros radius. apply integration_fourier_finite, Hnz.
  - intros r v. unfold encircled_energy, meshgrid. fold mtf. fold nu_p.
    destruct (index2 _ 1 0) as [a |]; simpl; [| discriminate].
    destruct (index2 _ 0 0) as [b |]; simpl; [| discriminate].
    destruct (index2 _ 0 1) as [c |]; simpl; [| discriminate].
    destruct (index2 _ 0 0) as [d |]; simpl; [| discriminate].
    intros H. injection H as <-. split.
    + exists (a - b), (c - d). reflexivity.
    + apply core_finite, Hnz.
  - intros rs vs. unfold encircled_energy, meshgrid. fold mtf. fold nu_p.
    destruct (index2 _ 1 0) as [a |]; simpl; [| discriminate].
    destruct (index2 _ 0 0) as [b |]; simpl; [| discriminate].
    destruct (index2 _ 0 1) as [c |]; simpl; [| discriminate].
    destruct (index2 _ 0 0) as [d |]; simpl; [| discriminate].
    rewrite fold_left_append. simpl app.
    intros H. injection H as <-. split.
    + exists (a - b), (c - d). reflexivity.
    + apply Forall_map, Forall_forall. intros r _. apply core_finite, Hnz.
Qed.

Lemma meshgrid_deltas (x0 x1 y0 y1 : Q) (xs ys : list Q) :
  let x := x0 :: x1 :: xs in
  let y := y0 :: y1 :: ys in
  index2 (snd (meshgrid x y)) 1 0 = Ok y1 /\
  index2 (snd (meshgrid x y)) 0 0 = Ok y0 /\
  index2 (fst (meshgrid x y)) 0 1 = Ok x1 /\
  index2 (fst (meshgrid x y)) 0 0 = Ok x0.
Proof.
  intros x y. unfold index2, meshgrid. simpl fst. simpl snd.
  split; [| split; [| split]].
  - rewrite (index_in_range _ 1%nat (map (fun _ => y1) x)) by reflexivity.
    simpl bind. apply (index_in_range _ 0%nat). reflexivity.
  - rewrite (index_in_range _ 0%nat (map (fun _ => y0) x)) by reflexivity.
    simpl bind. apply (index_in_range _ 0%nat). reflexivity.
  - rewrite (index_in_range _ 0%nat x) by reflexivity.
    simpl bind. apply (index_in_range _ 1%nat). reflexivity.
  - rewrite (index_in_range _ 0%nat x) by reflexivity.
    simpl bind. apply (index_in_range _ 0%nat). reflexivity.
Qed.

(** C7, as the code has it.  On an MTF grid of at least two samples per
    axis whose data has the grid's shape, an iterable of n radii gives an
    array of n values, the i-th being the scalar result for the i-th radius;
    a single number gives a scalar. *)
Theorem encircled_energy_iterable (psf : array2) (dx : Q) (rs : list Q) :
  let mtf := mtf_from_psf psf dx in
  (2 <= length (mtf_x mtf))%nat ->
  (2 <= length (mtf_y mtf))%nat ->
  rect (mtf_data mtf) ->
  shape (mtf_data mtf) = (length (mtf_y mtf), length (mtf_x mtf)) ->
  exists vs,
    encircled_energy mtf_from_psf np_sqrt j1 psf dx (RIter rs) = Ok (EArray vs) /\
    length vs = length rs /\
    (forall i r, nth_error rs i = Some r ->
       exists v, nth_error vs i = Some v /\
         encircled_energy mtf_from_psf np_sqrt j1 psf dx (RNum r)
           = Ok (EScalar v)).
Proof.
  intros mtf Hx Hy _ _.
  unfold encircled_energy. fold mtf.
  destruct (mtf_x mtf) as [| x0 [| x1 xs]] eqn:Ex; simpl in Hx; try lia.
  destruct (mtf_y mtf) as [| y0 [| y1 ys]] eqn:Ey; simpl in Hy; try lia.
  destruct (meshgrid_deltas x0 x1 y0 y1 xs ys) as (H10 & H00 & H01 & Hx00).
  destruct (meshgrid (x0 :: x1 :: xs) (y0 :: y1 :: ys)) as [nx ny].
  simpl fst in *. simpl snd in *.
  rewrite H10, H00, H01, Hx00. simpl bind.
  rewrite fold_left_append. simpl app.
  eexists. split; [reflexivity |]. split.
  - apply length_map.
  - intros i r Hi. eexists. split; [| reflexivity].
    rewrite nth_error_map, Hi. reflexivity.
Qed.

End EncircledEnergyFacts.

(** ** np.argmax on a boolean row *)

Section Argmax.

Lemma argmax_from_true (besti i : nat) (l : list bool) :
  argmax_from true besti i l = besti.
Proof.
  revert i. induction l as [| b t IH]; intros i; simpl; [reflexivity | apply IH].
Qed.

Lemma argmax_from_false (besti i : nat) (l : list bool) :
  (exists k, argmax_from false besti i l = (i + k)%nat /\
             nth_error l k = Some true /\
             forall j, (j < k)%nat -> nth_error l j = Some false)
  \/ (argmax_from false besti i l = besti /\ forall b, In b l -> b = false).
Proof.
  revert i. induction l as [| b t IH]; intros i; simpl.
  - right. split; [reflexivity | intros b []].
  - destruct b; simpl.
    + left. exists 0%nat. rewrite argmax_from_true.
      split; [lia |]. split; [reflexivity | intros j Hj; lia].
    + destruct (IH (S i)) as [(k & Hk & Hnth & Hbefore) | [Hk Hall]].
      * left. exists (S k). split; [lia |]. split; [exact Hnth |].
        intros [| j] Hj; simpl; [reflexivity | apply Hbefore; lia].
      * right. split; [exact Hk |].
        intros b [<- | Hb]; [reflexivity | apply Hall, Hb].
Qed.

(** [np.argmax] of a boolean row is the index of its first [True], and 0
    when it has none. *)
Lemma np_argmax_spec (l : list bool) :
  (nth_error l (np_argmax l) = Some true /\
   forall j, (j < np_argmax l)%nat -> nth_error l j = Some false)
  \/ (np_argmax l = 0%nat /\ forall b, In b l -> b = false).
Proof.
  destruct l as [| b t]; simpl.
  - right. split; [reflexivity | intros b []].
  - destruct b.
    + left. rewrite argmax_from_true. split; [reflexivity | intros j Hj; lia].
    + destruct (argmax_from_false 0 1 t) as [(k & Hk & Hnth & Hbefore) | [Hk Hall]].
      * left. rewrite Hk. simpl. split; [exact Hnth |].
        intros [| j] Hj; simpl; [reflexivity | apply Hbefore; lia].
      * right. split; [exact Hk |].
        intros b [<- | Hb]; [reflexivity | apply Hall, Hb].
Qed.

Lemma mask_nth_true (row : list Q) (hm : Q) (k : nat) :
  nth_error (map (fun v => Qgtb v hm) row) k = Some true <->
  exists v, nth_error row k = Some v /\ hm < v.
Proof.
  rewrite nth_error_map. split.
  - destruct (nth_error row k) as [v |]; simpl; [| discriminate].
    intros H. injection H as H. exists v. split; [reflexivity |].
    apply Qgtb_true, H.
  - intros (v & -> & Hv). simpl. f_equal. apply Qgtb_true, Hv.
Qed.

Lemma mask_nth_false (row : list Q) (hm : Q) (k : nat) (v : Q) :
  nth_error (map (fun v => Qgtb v hm) row) k = Some false ->
  nth_error row k = Some v -> v <= hm.
Proof.
  rewrite nth_error_map. intros H Hv. rewrite Hv in H. simpl in H.
  injection H as H. apply Qgtb_false, H.
Qed.

Lemma argmax_first_crossing (row : list Q) (hm : Q) :
  Spec.first_crossing row hm (np_argmax (map (fun v => Qgtb v hm) row)).
Proof.
  unfold Spec.first_crossing.
  destruct (np_argmax_spec (map (fun v => Qgtb v hm) row))
    as [[Hk Hbefore] | [Hk Hall]].
  - left. split; [apply mask_nth_true, Hk |].
    intros j v Hj Hv. apply (mask_nth_false row hm j v); [| exact Hv].
    apply Hbefore, Hj.
  - right. split; [exact Hk |]. intros v Hv.
    apply Qgtb_false. apply Hall. apply in_map_iff. exists v. split; [reflexivity | exact Hv].
Qed.

(** C5, as the code has it.  The index averaged for criteria 'first' is
    computed per row of [polar] (first index) by scanning its columns
    (second index): for each row it is the first column at which
    polar > hm, or 0 when the row never exceeds hm, and [meanidx] is the
    mean of these indices over the rows.  It is the per-angle index of the
    first radius when the rows are the angles and the columns the radii. *)
Theorem first_criterion_scans_each_row (polar : array2) (hm : Q) :
  let idx := argmax_axis1 (gt_mask polar hm) in
  crossing (gt_mask polar hm) "first" = Ok (divmod1 (np_mean idx)) /\
  length idx = length polar /\
  (forall a row, nth_error polar a = Some row ->
     exists k, nth_error idx a = Some k /\ Spec.first_crossing row hm k) /\
  (polar <> [] ->
   exists m, np_mean idx = Fin m /\
     m * inject_Z (Z.of_nat (length polar)) == inject_Z (Z.of_nat (sum_nat idx))).
Proof.
  intros idx. split; [reflexivity |]. split; [| split].
  - unfold idx, argmax_axis1, gt_mask. rewrite !length_map. reflexivity.
  - intros a row Ha. unfold idx, argmax_axis1, gt_mask.
    rewrite !nth_error_map, Ha. simpl. eexists. split; [reflexivity |].
    apply argmax_first_crossing.
  - intros Hne. unfold np_mean.
    assert (Hlen : length idx = length polar)
      by (unfold idx, argmax_axis1, gt_mask; rewrite !length_map; reflexivity).
    rewrite Hlen.
    assert (Hnz : ~ inject_Z (Z.of_nat (length polar)) == 0).
    { destruct polar; [congruence |]. simpl length.
      intro H. unfold Qeq in H. simpl in H. lia. }
    rewrite fdiv_nonzero by exact Hnz.
    eexists. split; [reflexivity |]. field. exact Hnz.
Qed.

End Argmax.

(** C5, as stated, fails.  Take two radii and two angles with
    polar[i,j] the value at (r[i], p[j]): angle 0 is dark and angle 1 is
    above the half maximum at every radius.  Per angle the first radius
    above the threshold has index 0 (angle 0 has none), so the claimed
    average is 0; the code averages 1. *)
Lemma first_criterion_not_per_angle :
  let polar := snd Examples.one_bright_angle in
  np_max polar = Ok 1 /\
  threshold (VStr "fwhm") 1 = Ok (1 / 2) /\
  exists c s,
    meanidx_first (gt_mask polar (1 / 2)) = Fin c /\
    Spec.per_angle_first_radius_mean polar (1 / 2) = Fin s /\
    c == 1 /\ s == 0 /\ ~ c == s.
Proof.
  split; [reflexivity |]. split; [reflexivity |].
  eexists; eexists. split; [vm_compute; reflexivity |].
  split; [vm_compute; reflexivity |].
  split; [reflexivity |]. split; [reflexivity |].
  intro H. discriminate H.
Qed.

(** ** estimate_size: the interpolated result *)

Section Interpolation.

Variable ucp : list Q -> list Q -> array2 -> result polar_grid.




End Interpolation.



(** ** estimate_size on a profile that is the same at every angle *)

Section ConstantOverAngle.

Variable ucp : list Q -> list Q -> array2 -> result polar_grid.

Lemma fold_add_repeat (a k acc : nat) :
  fold_left Nat.add (repeat a k) acc = (acc + k * a)%nat.
Proof.
  revert acc. induction k as [| k IH]; intros acc; simpl; [lia |].
  rewrite IH. lia.
Qed.

Lemma np_mean_repeat (a n : nat) :
  exists m, np_mean (repeat a (S n)) = Fin m /\ m == inject_Z (Z.of_nat a).
Proof.
  unfold np_mean, sum_nat. rewrite fold_add_repeat, repeat_length.
  assert (Hnz : ~ inject_Z (Z.of_nat (S n)) == 0).
  { intro H. unfold Qeq in H. simpl in H. lia. }
  rewrite fdiv_nonzero by exact Hnz.
  eexists. split; [reflexivity |].
  replace (0 + S n * a)%nat with (S n * a)%nat by lia.
  rewrite Nat2Z.inj_mul, inject_Z_mult. field. exact Hnz.
Qed.

Lemma interpolate_whole (r : list Q) (k : nat) (rk m rem : Q) :
  nth_error r k = Some rk ->
  (2 <= length r)%nat ->
  m == inject_Z (Z.of_nat k) ->
  rem == 0 ->
  exists v,
    interpolate r (Fin (inject_Z (Qfloor m))) (Fin rem) = Ok v /\ v == rk.
Proof.
  intros Hk Hlen Hm Hrem.
  assert (Hfloor : Qfloor m = Z.of_nat k) by (rewrite Hm; apply Qfloor_Z).
  destruct (nth_error r 1) as [r1 |] eqn:H1.
  2:{ apply nth_error_None in H1. lia. }
  unfold interpolate. rewrite py_int_inject_Z, Hfloor. simpl bind.
  rewrite (index_in_range r k rk Hk). simpl bind.
  pose proof (index_in_range r 1%nat r1 H1) as Hi1.
  change (Z.of_nat 1) with 1%Z in Hi1. rewrite Hi1. simpl bind.
  eexists. split; [reflexivity |]. rewrite Hrem. ring.
Qed.

Lemma first_crossing_unique (row : list Q) (hm : Q) (a k : nat) :
  Spec.first_crossing row hm a -> Spec.first_crossing row hm k -> a = k.
Proof.
  intros [[(va & Ha & Hva) Hbefore_a] | [-> Hall_a]]
         [[(vk & Hk & Hvk) Hbefore_k] | [-> Hall_k]].
  - destruct (Nat.lt_trichotomy a k) as [Hlt | [Heq | Hgt]]; [| exact Heq |].
    + exfalso. apply (Qlt_not_le _ _ Hva). apply (Hbefore_k a va Hlt Ha).
    + exfalso. apply (Qlt_not_le _ _ Hvk). apply (Hbefore_a k vk Hgt Hk).
  - exfalso. apply (Qlt_not_le _ _ Hva). apply Hall_k.
    apply (nth_error_In _ _ Ha).
  - exfalso. apply (Qlt_not_le _ _ Hvk). apply Hall_a.
    apply (nth_error_In _ _ Hk).
  - reflexivity.
Qed.

(** Scanning the reversed row finds the last crossing, counted from the end. *)
Lemma argmax_rev_last_crossing (prof : list Q) (hm : Q) (b : nat) :
  Spec.last_crossing prof hm b ->
  (b < length prof)%nat /\
  np_argmax (rev (map (fun v => Qgtb v hm) prof)) = (length prof - S b)%nat.
Proof.
  intros [(vb & Hb & Hvb) Hafter].
  assert (HbL : (b < length prof)%nat) by (apply nth_error_Some; congruence).
  split; [exact HbL |].
  set (mrow := map (fun v => Qgtb v hm) prof).
  assert (HL : length mrow = length prof) by apply length_map.
  assert (Hrevb : nth_error (rev mrow) (length prof - S b) = Some true).
  { rewrite nth_error_rev, HL.
    destruct (Nat.ltb_spec (length prof - S b) (length prof)) as [_ | H]; [| lia].
    replace (length prof - S (length prof - S b))%nat with b by lia.
    apply mask_nth_true. exists vb. split; assumption. }
  destruct (np_argmax_spec (rev mrow)) as [[Hk Hbefore] | [_ Hall]].
  - set (k := np_argmax (rev mrow)) in *.
    assert (HkL : (k < length prof)%nat).
    { rewrite <- HL, <- length_rev. apply nth_error_Some. congruence. }
    rewrite nth_error_rev, HL in Hk.
    destruct (Nat.ltb_spec k (length prof)) as [_ | H]; [| lia].
    apply mask_nth_true in Hk as (vk & Hk & Hvk).
    destruct (Nat.lt_trichotomy k (length prof - S b)) as [Hlt | [Heq | Hgt]].
    + exfalso. apply (Qlt_not_le _ _ Hvk).
      apply (Hafter (length prof - S k)%nat vk); [lia | exact Hk].
    + exact Heq.
    + specialize (Hbefore _ Hgt). congruence.
  - apply nth_error_In in Hrevb. apply Hall in Hrevb. discriminate.
Qed.

Lemma sorted_nth_lt (r : list Q) (i j : nat) (a b : Q) :
  StronglySorted Qlt r ->
  nth_error r i = Some a -> nth_error r j = Some b -> (i < j)%nat -> a < b.
Proof.
  intros Hs. revert i j. induction Hs as [| h t _ IH Hall]; intros i j Ha Hb Hij.
  - destruct i; discriminate.
  - destruct j as [| j]; [lia |]. simpl in Hb. destruct i as [| i].
    + simpl in Ha. injection Ha as <-.
      rewrite Forall_forall in Hall. apply Hall, (nth_error_In _ _ Hb).
    + simpl in Ha. apply (IH i j Ha Hb). lia.
Qed.

(** C4, as the code has it.  When every angle row of the polar array is the
    same radial profile, criteria 'first' returns r[a] for the first radial
    index a above the threshold and criteria 'last' returns r[b+1] for the
    last radial index b above it.  As a <= b the two are taken at different
    radial bins, and on strictly ascending radii the 'last' result is
    strictly larger. *)
Theorem estimate_size_first_last_profile
  (x y : list Q) (data : array2) (s : string) (r p prof : list Q) (n : nat)
  (max_ hm : Q) (a b : nat) (ra rb : Q) :
  ucp x y data = Ok (r, p, repeat prof (S n)) ->
  np_max (repeat prof (S n)) = Ok max_ ->
  threshold (VStr (lower s)) max_ = Ok hm ->
  Spec.first_crossing prof hm a ->
  Spec.last_crossing prof hm b ->
  nth_error r a = Some ra ->
  nth_error r (S b) = Some rb ->
  (exists u, estimate_size ucp x y data (VStr s) "first" = Ok u /\ u == ra) /\
  (exists v, estimate_size ucp x y data (VStr s) "last" = Ok v /\ v == rb) /\
  (a <= b)%nat /\
  (StronglySorted Qlt r -> ra < rb).
Proof.
  intros Hres Hmax Hhm Ha Hb Hra Hrb.
  assert (Hlen : (2 <= length r)%nat).
  { assert (S b < length r)%nat by (apply nth_error_Some; congruence). lia. }
  assert (Hab : (a <= b)%nat).
  { destruct Hb as [(vb & Hb & Hvb) _].
    destruct Ha as [[_ Hbefore] | [-> _]]; [| lia].
    destruct (Nat.le_gt_cases a b) as [H | H]; [exact H |].
    exfalso. apply (Qlt_not_le _ _ Hvb). apply (Hbefore b vb H Hb). }
  set (mrow := map (fun v => Qgtb v hm) prof).
  assert (Hmask : gt_mask (repeat prof (S n)) hm = repeat mrow (S n)).
  { unfold gt_mask. apply map_repeat. }
  split; [| split; [| split]].
  - unfold estimate_size. cbn [lower_method bind].
    rewrite Hres. cbn [bind]. rewrite Hmax. cbn [bind]. rewrite Hhm. cbn [bind].
    change (lower "first") with "first"%string.
    unfold crossing. simpl String.eqb. cbv iota.
    unfold meanidx_first. rewrite Hmask. unfold argmax_axis1. rewrite map_repeat.
    destruct (np_mean_repeat (np_argmax mrow) n) as (m & -> & Hm).
    cbn [divmod1 bind].
    assert (Hk : np_argmax mrow = a).
    { symmetry. apply (first_crossing_unique prof hm); [exact Ha |].
      apply argmax_first_crossing. }
    rewrite Hk in Hm.
    apply (interpolate_whole r a ra m); try assumption.
    assert (Hf : Qfloor m = Z.of_nat a) by (rewrite Hm; apply Qfloor_Z).
    rewrite Hf, Hm. ring.
  - unfold estimate_size. cbn [lower_method bind].
    rewrite Hres. cbn [bind]. rewrite Hmax. cbn [bind]. rewrite Hhm. cbn [bind].
    change (lower "last") with "last"%string.
    unfold crossing. simpl String.eqb. cbv iota.
    unfold meanidx_last. rewrite Hmask. unfold argmax_axis1, flip_axis1.
    rewrite !map_repeat.
    destruct (np_mean_repeat (np_argmax (rev mrow)) n) as (m & -> & Hm).
    destruct (argmax_rev_last_crossing prof hm b Hb) as [HbL Hk].
    fold mrow in Hk. rewrite Hk in Hm.
    simpl shape. simpl snd. unfold mrow at 1. rewrite length_map.
    cbn [fsub divmod1 fmul bind].
    assert (Hm' : inject_Z (Z.of_nat (length prof)) - m == inject_Z (Z.of_nat (S b))).
    { rewrite Hm. unfold Qminus. rewrite <- inject_Z_opp, <- inject_Z_plus.
      replace (Z.of_nat (length prof) + - Z.of_nat (length prof - S b))%Z
        with (Z.of_nat (S b)) by lia.
      reflexivity. }
    apply (interpolate_whole r (S b) rb); try assumption.
    assert (Hf : Qfloor (inject_Z (Z.of_nat (length prof)) - m) = Z.of_nat (S b))
      by (rewrite Hm'; apply Qfloor_Z).
    rewrite Hf, Hm'. ring.
  - exact Hab.
  - intros Hs. apply (sorted_nth_lt r a (S b)); try assumption. lia.
Qed.

End ConstantOverAngle.

Lemma estimate_size_first_last_profile_witness :
  (exists u,
     estimate_size (Examples.resampled Examples.falling_by_angle)
       Examples.axis4 Examples.axis4 Examples.peak4 (VStr "FWHM") "first" = Ok u /\
     u == 0) /\
  (exists v,
     estimate_size (Examples.resampled Examples.falling_by_angle)
       Examples.axis4 Examples.axis4 Examples.peak4 (VStr "FWHM") "last" = Ok v /\
     v == 2) /\
  (0 <= 1)%nat /\
  (StronglySorted Qlt [0; 1; 2; 3] -> 0 < 2).
Proof.
  apply (estimate_size_first_last_profile
           (Examples.resampled Examples.falling_by_angle)
           Examples.axis4 Examples.axis4 Examples.peak4 "FWHM"
           [0; 1; 2; 3] [0; 1] [4; 3; 2; 1] 1 4 (4 / 2) 0 1 0 2).
  - reflexivity.
  - reflexivity.
  - reflexivity.
  - left. split.
    + exists 4. split; reflexivity.
    + intros j v Hj. lia.
  - split.
    + exists 3. split; reflexivity.
    + intros [| [| [| [| j]]]] v Hj Hv; try lia; simpl in Hv.
      * injection Hv as <-. intro H. discriminate H.
      * injection Hv as <-. intro H. discriminate H.
      * destruct j; discriminate Hv.
  - reflexivity.
  - reflexivity.
Defined.

(** C4, as stated, fails.  A profile falling from the centre, identical at
    both angles, on radii [0, 1, 2, 3] with the half-maximum threshold:
    'first' returns r[0] = 0 and 'last' returns r[2] = 2, two whole radial
    bins apart; the same happens when the array is stored with rows as
    radii. *)
Lemma first_and_last_differ :
  (exists u v,
     estimate_size (Examples.resampled Examples.falling_by_angle)
       Examples.axis4 Examples.axis4 Examples.peak4 (VStr "fwhm") "first" = Ok u /\
     estimate_size (Examples.resampled Examples.falling_by_angle)
       Examples.axis4 Examples.axis4 Examples.peak4 (VStr "fwhm") "last" = Ok v /\
     u == 0 /\ v == 2 /\ ~ Qabs (u - v) <= 1) /\
  (exists u v,
     estimate_size (Examples.resampled Examples.falling_by_radius)
       Examples.axis4 Examples.axis4 Examples.peak4 (VStr "fwhm") "first" = Ok u /\
     estimate_size (Examples.resampled Examples.falling_by_radius)
       Examples.axis4 Examples.axis4 Examples.peak4 (VStr "fwhm") "last" = Ok v /\
     u == 0 /\ v == 2 /\ ~ Qabs (u - v) <= 1).
Proof.
  split; eexists; eexists;
    (split; [vm_compute; reflexivity |]);
    (split; [vm_compute; reflexivity |]);
    (split; [reflexivity |]); (split; [reflexivity |]);
    intro H; vm_compute in H; apply H; reflexivity.
Qed.

Lemma encircled_energy_iterable_witness :
  (2 <= length (mtf_x Examples.grid3))%nat /\
  (2 <= length (mtf_y Examples.grid3))%nat /\
  rect (mtf_data Examples.grid3) /\
  shape (mtf_data Examples.grid3) = (3%nat, 3%nat) /\
  exists vs,
    encircled_energy Examples.mtf_on_grid3 Examples.sqrt_stand_in
      Examples.j1_leading_term Examples.peak3 1 (RIter [1; 2; 3]) = Ok (EArray vs) /\
    length vs = 3%nat /\
    (forall i r, nth_error [1; 2; 3] i = Some r ->
       exists v, nth_error vs i = Some v /\
         encircled_energy Examples.mtf_on_grid3 Examples.sqrt_stand_in
           Examples.j1_leading_term Examples.peak3 1 (RNum r) = Ok (EScalar v)).
Proof.
  assert (Hx : (2 <= length (mtf_x (Examples.mtf_on_grid3 Examples.peak3 1)))%nat)
    by (simpl; lia).
  assert (Hy : (2 <= length (mtf_y (Examples.mtf_on_grid3 Examples.peak3 1)))%nat)
    by (simpl; lia).
  assert (Hrect : rect (mtf_data (Examples.mtf_on_grid3 Examples.peak3 1)))
    by (repeat constructor).
  split; [exact Hx | split; [exact Hy | split; [exact Hrect |]]].
  split; [reflexivity |].
  exact (encircled_energy_iterable Examples.mtf_on_grid3 Examples.sqrt_stand_in
           Examples.j1_leading_term Examples.peak3 1 [1; 2; 3]
           Hx Hy Hrect eq_refl).
Defined.

(** C7, as stated, fails on a PSF whose MTF has a single sample per axis:
    the frequency steps ny[1,0] - ny[0,0] cannot be read, and the call
    raises IndexError for an iterable of radii as for a single radius,
    instead of returning an array of two values. *)
Lemma encircled_energy_single_sample_raises :
  encircled_energy Examples.mtf_on_grid1 Examples.sqrt_stand_in
    Examples.j1_leading_term [[1]] 1 (RIter [1; 2]) = Raise (IndexError 1 1) /\
  encircled_energy Examples.mtf_on_grid1 Examples.sqrt_stand_in
    Examples.j1_leading_term [[1]] 1 (RNum 1) = Raise (IndexError 1 1).
Proof.
  split; vm_compute; reflexivity.
Qed.

(** ** autocrop: success, failure and windows near an edge *)

Section AutocropEdges.

Lemma slice_length_clamped {A : Type} (l : list A) (lo hi : Z) :
  length (slice l lo hi) =
  Z.to_nat (Z.min (clamp (Z.of_nat (length l)) hi - clamp (Z.of_nat (length l)) lo)
              (Z.of_nat (length l) - clamp (Z.of_nat (length l)) lo)).
Proof.
  unfold slice. rewrite length_firstn, length_skipn.
  assert (H : (0 <= clamp (Z.of_nat (length l)) lo <= Z.of_nat (length l))%Z).
  { unfold clamp. destruct (Z.ltb_spec lo 0); lia. }
  lia.
Qed.

(** X2.  [autocrop] returns a window exactly when the samples do not sum to
    zero, whatever [px] is: slicing never raises, and on a zero sum (an
    all-zero or an empty array) the centroid is not a number and [int()] of
    it fails. *)
Theorem autocrop_ok_iff_nonzero_sum (data : array2) (px : Z) :
  (is_ok (autocrop data px) = true <-> ~ qsum (map qsum data) == 0) /\
  (qsum (map qsum data) == 0 -> autocrop data px = Raise ConversionError).
Proof.
  unfold autocrop, centroid, center_of_mass. simpl String.eqb. cbn [negb bind fst snd].
  unfold fdiv.
  destruct (Qeq_bool (qsum (map qsum data)) 0) eqn:E; cbn [py_int bind fst snd is_ok].
  - apply Qeq_bool_iff in E. split; [| reflexivity].
    split; [discriminate | intros H; contradiction].
  - split.
    + split; [| reflexivity]. intros _ H. apply Qeq_bool_iff in H. congruence.
    + intros H. apply Qeq_bool_iff in H. congruence.
Qed.

(** X3.  When the centroid row is closer than px//2 to the first row (and
    px//2 does not exceed the number of rows) the lower bound cy - px//2 is
    negative and counts from the end of the array, so the row slice is empty:
    the window has no rows at all rather than a truncated set of them. *)
Theorem autocrop_near_first_row_is_empty
  (data : array2) (px cy cx : Z) (fy fx : npfloat) :
  center_of_mass data = (fy, fx) ->
  py_int fy = Ok cy -> py_int fx = Ok cx ->
  (0 <= cy < px / 2)%Z ->
  (px / 2 <= Z.of_nat (length data))%Z ->
  autocrop data px = Ok [].
Proof.
  intros Hcom Hy Hx Hcy Hw.
  unfold autocrop, centroid. simpl String.eqb. cbn [negb bind].
  rewrite Hcom. cbn [fst snd]. rewrite Hy. cbn [bind]. rewrite Hx. cbn [bind].
  f_equal. unfold slice2.
  assert (E : slice data (cy - px / 2) (cy - px / 2 + px / 2) = []).
  { apply length_zero_iff_nil. rewrite slice_length_clamped.
    unfold clamp.
    destruct (Z.ltb_spec (cy - px / 2) 0) as [_ | H]; [| lia].
    destruct (Z.ltb_spec (cy - px / 2 + px / 2) 0) as [H | _]; lia. }
  rewrite E. reflexivity.
Qed.

End AutocropEdges.

Lemma autocrop_shape_witness :
  exists win,
    autocrop Examples.peak4 2 = Ok win /\
    win = slice2 Examples.peak4 (1 - 2 / 2) 1 (1 - 2 / 2) 1 /\
    shape win = (Z.to_nat (2 / 2), Z.to_nat (2 / 2)).
Proof.
  apply (autocrop_shape Examples.peak4 2 1 1 (Fin (54 # 36)) (Fin (54 # 36))).
  - repeat constructor.
  - vm_compute. reflexivity.
  - reflexivity.
  - reflexivity.
  - reflexivity.
  - split; discriminate.
  - split; discriminate.
Defined.

Lemma autocrop_near_first_row_is_empty_witness :
  autocrop Examples.data5 6 = Ok [].
Proof.
  apply (autocrop_near_first_row_is_empty Examples.data5 6 2 2 (Fin 2) (Fin 2)).
  - vm_compute. reflexivity.
  - reflexivity.
  - reflexivity.
  - split; [discriminate | reflexivity].
  - discriminate.
Defined.

(** ** estimate_size: letter case *)

Section LetterCase.

Variable ucp : list Q -> list Q -> array2 -> result polar_grid.

Lemma lower_ascii_idempotent (c : ascii) :
  lower_ascii (lower_ascii c) = lower_ascii c.
Proof.
  destruct c as [[] [] [] [] [] [] [] []]; reflexivity.
Qed.

Lemma lower_idempotent (s : string) : lower (lower s) = lower s.
Proof.
  induction s as [| c t IH]; simpl; [reflexivity |].
  rewrite lower_ascii_idempotent, IH. reflexivity.
Qed.

(** X4.  [estimate_size] sees its metric and criteria only through
    [.lower()]: any spelling of them gives exactly the result, value or
    exception, of the lower-case spelling. *)
Theorem estimate_size_case_insensitive
  (x y : list Q) (data : array2) (s criteria : string) :
  estimate_size ucp x y data (VStr s) criteria =
  estimate_size ucp x y data (VStr (lower s)) (lower criteria).
Proof.
  unfold estimate_size, lower_method. cbn [bind].
  rewrite !lower_idempotent. reflexivity.
Qed.

End LetterCase.

(** ** estimate_size: the threshold against the peak *)

Section ThresholdLevels.

Lemma qmax_ge_l (a b : Q) : a <= qmax a b.
Proof.
  unfold qmax. destruct (Qle_bool a b) eqn:E.
  - apply Qle_bool_iff, E.
  - apply Qle_refl.
Qed.

Lemma qmax_ge_r (a b : Q) : b <= qmax a b.
Proof.
  unfold qmax. destruct (Qle_bool a b) eqn:E.
  - apply Qle_refl.
  - apply Qlt_le_weak, Qnot_le_lt. intro H. apply Qle_bool_iff in H. congruence.
Qed.

Lemma qmax_cases (a b : Q) : qmax a b = a \/ qmax a b = b.
Proof. unfold qmax. destruct (Qle_bool a b); [right | left]; reflexivity. Qed.

Lemma fold_qmax_spec (t : list Q) (v : Q) :
  In (fold_left qmax t v) (v :: t) /\
  forall u, In u (v :: t) -> u <= fold_left qmax t v.
Proof.
  revert v. induction t as [| a t IH]; intros v; simpl.
  - split; [left; reflexivity |]. intros u [<- | []]. apply Qle_refl.
  - destruct (IH (qmax v a)) as [Hin Hmax]. split.
    + destruct Hin as [Hin | Hin]; [| right; right; exact Hin].
      destruct (qmax_cases v a) as [E | E]; [left | right; left]; congruence.
    + intros u [Hu | [Hu | Hu]].
      * subst u. apply Qle_trans with (qmax v a); [apply qmax_ge_l |].
        apply Hmax. left. reflexivity.
      * subst u. apply Qle_trans with (qmax v a); [apply qmax_ge_r |].
        apply Hmax. left. reflexivity.
      * apply Hmax. right. exact Hu.
Qed.

(** [polar.max()] is a sample of the array and no sample exceeds it. *)
Lemma np_max_spec (a : array2) (m : Q) :
  np_max a = Ok m ->
  (exists row, In row a /\ In m row) /\
  forall row v, In row a -> In v row -> v <= m.
Proof.
  unfold np_max. destruct (concat a) as [| v t] eqn:E; [discriminate |].
  intros H. injection H as <-.
  destruct (fold_qmax_spec t v) as [Hin Hmax]. rewrite <- E in Hin, Hmax.
  split.
  - apply in_concat in Hin as (row & Hrow & Hm). exists row. split; assumption.
  - intros row u Hrow Hu. apply Hmax. apply in_concat. exists row.
    split; assumption.
Qed.

(** Every enumerated metric puts the threshold at a fixed fraction of the
    peak, strictly between 0 and 1. *)
Lemma threshold_fraction (m : string) (max_ hm : Q) :
  threshold (VStr m) max_ = Ok hm ->
  exists c, hm == c * max_ /\ 0 < c /\ c < 1.
Proof.
  unfold threshold, eq_str, is_number.
  destruct (String.eqb m "fwhm").
  { intros H. injection H as <-. exists (1 # 2).
    split; [field | split; reflexivity]. }
  destruct (String.eqb m "1/e").
  { intros H. injection H as <-. exists (1 / np_e).
    split; [reflexivity | split; reflexivity]. }
  destruct (String.eqb m "1/e^2").
  { intros H. injection H as <-. exists (1 / np_e ^ 2).
    split; [reflexivity | split; reflexivity]. }
  discriminate.
Qed.

(** X5.  For the enumerated metrics the threshold is a fraction of the peak
    of the polar array.  With a positive peak it lies strictly between 0 and
    the peak, so at least one sample is above it; with a peak that is zero
    or negative no sample is above it. *)
Theorem threshold_against_peak (polar : array2) (m : string) (max_ hm : Q) :
  np_max polar = Ok max_ ->
  threshold (VStr m) max_ = Ok hm ->
  (0 < max_ ->
     0 < hm /\ hm < max_ /\
     exists row v, In row polar /\ In v row /\ hm < v) /\
  (max_ <= 0 -> forall row v, In row polar -> In v row -> v <= hm).
Proof.
  intros Hmax Hhm.
  destruct (threshold_fraction m max_ hm Hhm) as (c & Hc & Hc0 & Hc1).
  destruct (np_max_spec polar max_ Hmax) as [(row & Hrow & Hin) Hle].
  split.
  - intros Hpos.
    assert (H0 : 0 < hm) by (rewrite Hc; nra).
    assert (H1 : hm < max_) by (rewrite Hc; nra).
    split; [exact H0 |]. split; [exact H1 |].
    exists row, max_. repeat split; assumption.
  - intros Hneg row' v Hrow' Hv.
    apply Qle_trans with max_; [apply (Hle row' v Hrow' Hv) |].
    rewrite Hc. nra.
Qed.

(** X6.  For a positive peak the three enumerated thresholds are ordered,
    1/e^2 below 1/e below the half maximum, so every sample above the half
    maximum is above the 1/e level, and every sample above the 1/e level is
    above the 1/e^2 level. *)
Theorem thresholds_are_nested (max_ : Q) :
  0 < max_ ->
  exists h_half h_e h_e2,
    threshold (VStr "fwhm") max_ = Ok h_half /\
    threshold (VStr "1/e") max_ = Ok h_e /\
    threshold (VStr "1/e^2") max_ = Ok h_e2 /\
    h_e2 < h_e /\ h_e < h_half /\
    (forall v, Qgtb v h_half = true -> Qgtb v h_e = true) /\
    (forall v, Qgtb v h_e = true -> Qgtb v h_e2 = true).
Proof.
  intros Hpos.
  exists (max_ / 2), (1 / np_e * max_), (1 / np_e ^ 2 * max_).
  split; [reflexivity |]. split; [reflexivity |]. split; [reflexivity |].
  assert (Ha : 1 / np_e ^ 2 < 1 / np_e) by reflexivity.
  assert (Hb : 1 / np_e < 1 # 2) by reflexivity.
  assert (H1 : 1 / np_e ^ 2 * max_ < 1 / np_e * max_) by nra.
  assert (H2 : 1 / np_e * max_ < max_ / 2).
  { assert (E : max_ / 2 == (1 # 2) * max_) by field. rewrite E. nra. }
  split; [exact H1 |]. split; [exact H2 |]. split.
  - intros v Hv. apply Qgtb_true. apply Qgtb_true in Hv.
    apply Qlt_trans with (max_ / 2); assumption.
  - intros v Hv. apply Qgtb_true. apply Qgtb_true in Hv.
    apply Qlt_trans with (1 / np_e * max_); assumption.
Qed.

End ThresholdLevels.

Lemma threshold_against_peak_witness :
  (0 < 4 -> 0 < 4 / 2 /\ 4 / 2 < 4 /\
     exists row v, In row (snd Examples.falling_by_angle) /\ In v row /\ 4 / 2 < v) /\
  (4 <= 0 -> forall row v,
     In row (snd Examples.falling_by_angle) -> In v row -> v <= 4 / 2).
Proof.
  apply (threshold_against_peak (snd Examples.falling_by_angle) "fwhm" 4 (4 / 2)).
  - reflexivity.
  - reflexivity.
Defined.

Lemma thresholds_are_nested_witness :
  0 < 4 /\
  exists h_half h_e h_e2,
    threshold (VStr "fwhm") 4 = Ok h_half /\
    threshold (VStr "1/e") 4 = Ok h_e /\
    threshold (VStr "1/e^2") 4 = Ok h_e2 /\
    h_e2 < h_e /\ h_e < h_half /\
    (forall v, Qgtb v h_half = true -> Qgtb v h_e = true) /\
    (forall v, Qgtb v h_e = true -> Qgtb v h_e2 = true).
Proof.
  split; [reflexivity |].
  apply (thresholds_are_nested 4). reflexivity.
Defined.

(** ** estimate_size: which index is read, and when it is out of range *)

Section CrossingIndex.

Variable ucp : list Q -> list Q -> array2 -> result polar_grid.

Lemma estimate_size_steps (x y : list Q) (data : array2) (s c : string)
  (r p : list Q) (polar : array2) (max_ hm : Q) :
  ucp x y data = Ok (r, p, polar) ->
  np_max polar = Ok max_ ->
  threshold (VStr (lower s)) max_ = Ok hm ->
  estimate_size ucp x y data (VStr s) c =
  bind (crossing (gt_mask polar hm) (lower c))
    (fun lr => interpolate r (fst lr) (snd lr)).
Proof.
  intros Hres Hmax Hhm. unfold estimate_size. cbn [lower_method bind].
  rewrite Hres. cbn [bind]. rewrite Hmax. cbn [bind]. rewrite Hhm. cbn [bind].
  destruct (crossing (gt_mask polar hm) (lower c)) as [[lo re] |]; reflexivity.
Qed.

Lemma crossing_last (mask : list (list bool)) :
  crossing mask "last" =
  Ok (fst (divmod1 (meanidx_last mask)),
      fmul (snd (divmod1 (meanidx_last mask))) (Fin (-1))).
Proof.
  unfold crossing. simpl String.eqb. cbv iota.
  destruct (divmod1 (meanidx_last mask)); reflexivity.
Qed.

Lemma index_in_bounds {A : Type} (l : list A) (z : Z) :
  (0 <= z < Z.of_nat (length l))%Z -> exists a, index l z = Ok a.
Proof.
  intros Hz.
  destruct (nth_error l (Z.to_nat z)) as [a |] eqn:E.
  - exists a. rewrite <- (Z2Nat.id z) by lia. apply index_in_range, E.
  - apply nth_error_None in E. lia.
Qed.

Lemma index_past_end {A : Type} (l : list A) (k : nat) :
  (length l <= k)%nat -> index l (Z.of_nat k) = Raise (IndexError (Z.of_nat k) (length l)).
Proof.
  intros Hk. unfold index.
  destruct (Z.ltb_spec (Z.of_nat k) 0) as [H | _]; [lia |].
  destruct (Z.ltb_spec (Z.of_nat k) (Z.of_nat (length l))) as [H | _]; [lia |].
  rewrite andb_false_r. reflexivity.
Qed.

Lemma np_argmax_lt (l : list bool) : l <> [] -> (np_argmax l < length l)%nat.
Proof.
  intros Hne. destruct (np_argmax_spec l) as [[Hk _] | [-> _]].
  - apply nth_error_Some. congruence.
  - destruct l; [congruence | simpl; lia].
Qed.

Lemma fold_add_bound (l : list nat) (B acc : nat) :
  Forall (fun k => (k <= B)%nat) l ->
  (fold_left Nat.add l acc <= acc + length l * B)%nat.
Proof.
  intros H. revert acc. induction H as [| k l Hk _ IH]; intros acc; simpl; [lia |].
  specialize (IH (acc + k)%nat). lia.
Qed.

(** The mean of indices that are all at most [B] lies between 0 and [B]. *)
Lemma np_mean_bounds (l : list nat) (B : nat) :
  l <> [] ->
  Forall (fun k => (k <= B)%nat) l ->
  exists m, np_mean l = Fin m /\ 0 <= m /\ m <= inject_Z (Z.of_nat B).
Proof.
  intros Hne Hall. unfold np_mean.
  assert (Hpos : 0 < inject_Z (Z.of_nat (length l))).
  { destruct l; [congruence |]. unfold Qlt. simpl. lia. }
  assert (Hnz : ~ inject_Z (Z.of_nat (length l)) == 0).
  { intro H. rewrite H in Hpos. apply (Qlt_irrefl 0 Hpos). }
  rewrite fdiv_nonzero by exact Hnz.
  eexists. split; [reflexivity |]. split.
  - apply Qle_shift_div_l; [exact Hpos |]. rewrite Qmult_0_l.
    rewrite <- (Zle_Qle 0). lia.
  - apply Qle_shift_div_r; [exact Hpos |].
    rewrite <- inject_Z_mult, <- Zle_Qle, <- Nat2Z.inj_mul.
    apply Nat2Z.inj_le. rewrite (Nat.mul_comm B).
    pose proof (fold_add_bound l B 0 Hall) as Hb. unfold sum_nat.
    simpl in Hb. exact Hb.
Qed.

Lemma Qfloor_bounds (m : Q) (B : nat) :
  0 <= m -> m <= inject_Z (Z.of_nat B) -> (0 <= Qfloor m <= Z.of_nat B)%Z.
Proof.
  intros H0 HB. split.
  - rewrite <- (Qfloor_Z 0). apply Qfloor_resp_le, H0.
  - rewrite <- (Qfloor_Z (Z.of_nat B)). apply Qfloor_resp_le, HB.
Qed.

Lemma mask_rows_nonempty (polar : array2) (hm : Q) (n : nat) :
  (0 < n)%nat ->
  Forall (fun row => length row = n) polar ->
  Forall (fun mrow => mrow <> []) (gt_mask polar hm).
Proof.
  intros Hn H. unfold gt_mask. apply Forall_map.
  eapply Forall_impl; [| exact H]. intros row Hrow Hnil.
  apply (f_equal (@length bool)) in Hnil. rewrite length_map in Hnil.
  simpl in Hnil, Hrow. lia.
Qed.

Lemma np_max_of_grid (polar : array2) (n : nat) :
  polar <> [] -> (0 < n)%nat ->
  Forall (fun row => length row = n) polar ->
  exists max_, np_max polar = Ok max_.
Proof.
  intros Hne Hn H. apply np_max_nonempty.
  destruct polar as [| row rest]; [congruence |].
  inversion H; subst. destruct row; [simpl in Hn; lia | discriminate].
Qed.

(** X7.  With criteria 'first' (in any letter case), an enumerated metric and
    a resampled grid that is well formed (a non-empty polar array whose rows
    are as long as the radius axis, at least two radii), [estimate_size]
    always returns a value: the averaged index lies within the radius axis,
    so neither lookup can fail. *)
Theorem estimate_size_first_returns
  (x y : list Q) (data : array2) (s c : string) (r p : list Q) (polar : array2) :
  ucp x y data = Ok (r, p, polar) ->
  polar <> [] ->
  Forall (fun row => length row = length r) polar ->
  (2 <= length r)%nat ->
  Spec.known_metric s = true ->
  lower c = "first"%string ->
  exists v, estimate_size ucp x y data (VStr s) c = Ok v.
Proof.
  intros Hres Hne Hrect Hlen Hs Hc.
  destruct (np_max_of_grid polar (length r) Hne ltac:(lia) Hrect) as [max_ Hmax].
  destruct (threshold_known s max_ Hs) as [hm Hhm].
  rewrite (estimate_size_steps x y data s c r p polar max_ hm Hres Hmax Hhm), Hc.
  unfold crossing. simpl String.eqb. cbv iota. cbn [bind fst snd].
  unfold meanidx_first.
  destruct (np_mean_bounds (argmax_axis1 (gt_mask polar hm)) (length r - 1))
    as (m & Hm & H0 & HB).
  - unfold argmax_axis1, gt_mask. destruct polar; [congruence | discriminate].
  - unfold argmax_axis1. apply Forall_map.
    pose proof (mask_rows_nonempty polar hm (length r) ltac:(lia) Hrect) as Hrows.
    assert (Hlens : Forall (fun mrow : list bool => length mrow = length r)
                      (gt_mask polar hm)).
    { unfold gt_mask. apply Forall_map. eapply Forall_impl; [| exact Hrect].
      intros row Hrow. rewrite length_map. exact Hrow. }
    rewrite Forall_forall in *. intros mrow Hin.
    pose proof (np_argmax_lt mrow (Hrows mrow Hin)) as Hlt.
    rewrite (Hlens mrow Hin) in Hlt. lia.
  - rewrite Hm. cbn [divmod1 fst snd].
    pose proof (Qfloor_bounds m (length r - 1) H0 HB) as Hf.
    unfold interpolate. rewrite py_int_inject_Z. cbn [bind].
    destruct (index_in_bounds r (Qfloor m)) as [r_low ->]; [lia |]. cbn [bind].
    destruct (index_in_bounds r 1) as [r_1 ->]; [lia |]. cbn [bind].
    eexists. reflexivity.
Qed.

End CrossingIndex.

Lemma estimate_size_first_returns_witness :
  exists v,
    estimate_size (Examples.resampled Examples.ring_by_angle)
      Examples.axis3 Examples.axis3 Examples.peak3 (VStr "1/E") "First" = Ok v.
Proof.
  apply (estimate_size_first_returns
           (Examples.resampled Examples.ring_by_angle)
           Examples.axis3 Examples.axis3 Examples.peak3 "1/E" "First"
           [0; 1; 2] [0; 1; 2] [[1; 4; 1]; [1; 4; 4]; [1; 4; 1]]).
  - reflexivity.
  - discriminate.
  - repeat constructor.
  - simpl. lia.
  - reflexivity.
  - reflexivity.
Defined.

(** ** estimate_size: the 'last' criterion *)

Section LastCriterion.

Variable ucp : list Q -> list Q -> array2 -> result polar_grid.

(** Scanning a reversed row: the index found, counted back from the end, is
    one past the last sample above [hm]; a row never above [hm] gives 0. *)
Lemma argmax_rev_spec (row : list Q) (hm : Q) :
  let k := np_argmax (rev (map (fun v => Qgtb v hm) row)) in
  (exists b, Spec.last_crossing row hm b /\ (length row - k = S b)%nat)
  \/ (k = 0%nat /\ forall v, In v row -> v <= hm).
Proof.
  set (mrow := map (fun v => Qgtb v hm) row). intros k.
  assert (HL : length mrow = length row) by apply length_map.
  destruct (np_argmax_spec (rev mrow)) as [[Hk Hbefore] | [Hk Hall]].
  - left. fold k in Hk, Hbefore.
    assert (HkL : (k < length row)%nat).
    { rewrite <- HL, <- length_rev. apply nth_error_Some. congruence. }
    exists (length row - S k)%nat. split; [| lia].
    rewrite nth_error_rev, HL in Hk.
    destruct (Nat.ltb_spec k (length row)) as [_ | H]; [| lia].
    split; [apply mask_nth_true, Hk |].
    intros j v Hj Hv.
    assert (HjL : (j < length row)%nat) by (apply nth_error_Some; congruence).
    apply (mask_nth_false row hm j v); [| exact Hv].
    specialize (Hbefore (length row - S j)%nat ltac:(lia)).
    rewrite nth_error_rev, HL in Hbefore.
    destruct (Nat.ltb_spec (length row - S j) (length row)) as [_ | H]; [| lia].
    replace (length row - S (length row - S j))%nat with j in Hbefore by lia.
    exact Hbefore.
  - right. split; [exact Hk |]. intros v Hv. apply Qgtb_false.
    apply Hall. apply in_rev. rewrite rev_involutive.
    apply in_map_iff. exists v. split; [reflexivity | exact Hv].
Qed.

(** X8.  For criteria 'last' the code scans every row of [polar] from its
    last column backwards: the forward index it averages is, per row, one
    past the last column at which polar > hm, and the full row length when
    the row never exceeds hm; [meanidx] is the number of columns minus the
    mean of the backward indices. *)
Theorem last_criterion_scans_each_row_backwards (polar : array2) (hm : Q) :
  let idx := argmax_axis1 (flip_axis1 (gt_mask polar hm)) in
  meanidx_last (gt_mask polar hm) =
    fsub (Fin (inject_Z (Z.of_nat (snd (shape polar))))) (np_mean idx) /\
  length idx = length polar /\
  forall a row, nth_error polar a = Some row ->
    exists k, nth_error idx a = Some k /\
      ((exists b, Spec.last_crossing row hm b /\ (length row - k = S b)%nat)
       \/ (k = 0%nat /\ forall v, In v row -> v <= hm)).
Proof.
  intros idx. split; [| split].
  - unfold meanidx_last. fold idx. do 2 f_equal. do 2 f_equal.
    unfold shape, gt_mask. simpl snd. destruct polar as [| row rest]; simpl.
    + reflexivity.
    + apply length_map.
  - unfold idx, argmax_axis1, flip_axis1, gt_mask. rewrite !length_map. reflexivity.
  - intros a row Ha. unfold idx, argmax_axis1, flip_axis1, gt_mask.
    rewrite !nth_error_map, Ha. simpl. eexists. split; [reflexivity |].
    apply argmax_rev_spec.
Qed.

Lemma sum_nat_zeros (l : list nat) :
  Forall (fun k => k = 0%nat) l -> sum_nat l = 0%nat.
Proof.
  unfold sum_nat. induction 1 as [| k l Hk _ IH]; simpl; [reflexivity |].
  subst k. exact IH.
Qed.

Lemma np_mean_zeros (l : list nat) :
  l <> [] -> Forall (fun k => k = 0%nat) l ->
  exists m, np_mean l = Fin m /\ m == 0.
Proof.
  intros Hne Hall. unfold np_mean. rewrite (sum_nat_zeros l Hall).
  assert (Hnz : ~ inject_Z (Z.of_nat (length l)) == 0).
  { destruct l; [congruence |]. intro H. unfold Qeq in H. simpl in H. lia. }
  rewrite fdiv_nonzero by exact Hnz.
  eexists. split; [reflexivity |]. field. exact Hnz.
Qed.

Lemma no_outer_edge_argmax (hm : Q) (row : list Q) :
  Spec.no_outer_edge hm row ->
  np_argmax (rev (map (fun v => Qgtb v hm) row)) = 0%nat.
Proof.
  intros [(init & v & -> & Hv) | Hall].
  - rewrite map_app, rev_app_distr. simpl.
    apply Qgtb_true in Hv. rewrite Hv. apply argmax_from_true.
  - destruct (argmax_rev_spec row hm) as [(b & [(v & Hb & Hv) _] & _) | [Hk _]];
      [| exact Hk].
    exfalso. apply (Qlt_not_le _ _ Hv). apply Hall, (nth_error_In _ _ Hb).
Qed.

(** With every backward index 0 the 'last' branch reads [r] one past its
    end. *)
Lemma last_reads_past_the_end
  (x y : list Q) (data : array2) (s c : string) (r p : list Q)
  (polar : array2) (max_ hm : Q) :
  ucp x y data = Ok (r, p, polar) ->
  polar <> [] ->
  Forall (fun row => length row = length r) polar ->
  np_max polar = Ok max_ ->
  threshold (VStr (lower s)) max_ = Ok hm ->
  lower c = "last"%string ->
  Forall (Spec.no_outer_edge hm) polar ->
  estimate_size ucp x y data (VStr s) c =
    Raise (IndexError (Z.of_nat (length r)) (length r)).
Proof.
  intros Hres Hne Hrect Hmax Hhm Hc Hrows.
  rewrite (estimate_size_steps ucp x y data s c r p polar max_ hm Hres Hmax Hhm), Hc.
  rewrite crossing_last. cbn [bind fst snd].
  unfold meanidx_last.
  destruct (np_mean_zeros (argmax_axis1 (flip_axis1 (gt_mask polar hm))))
    as (m & Hm & Hm0).
  { unfold argmax_axis1, flip_axis1, gt_mask.
    destruct polar; [congruence | discriminate]. }
  { unfold argmax_axis1, flip_axis1, gt_mask. rewrite !Forall_map.
    eapply Forall_impl; [| exact Hrows]. intros row Hrow.
    apply no_outer_edge_argmax, Hrow. }
  rewrite Hm.
  assert (Hcols : snd (shape (gt_mask polar hm)) = length r).
  { destruct polar as [| row rest]; [congruence |]. inversion Hrect; subst.
    simpl. rewrite length_map. assumption. }
  rewrite Hcols. cbn [fsub divmod1 fst snd fmul].
  assert (Hf : Qfloor (inject_Z (Z.of_nat (length r)) - m) = Z.of_nat (length r)).
  { assert (E : inject_Z (Z.of_nat (length r)) - m == inject_Z (Z.of_nat (length r)))
      by (rewrite Hm0; ring).
    rewrite E. apply Qfloor_Z. }
  unfold interpolate. rewrite py_int_inject_Z, Hf. cbn [bind].
  rewrite index_past_end by lia. reflexivity.
Qed.

(** X9.  With criteria 'last', on a well-formed grid, [estimate_size] raises
    IndexError whenever every row of the polar array either ends above the
    threshold or never exceeds it: the averaged index is then the number of
    columns, one past the end of the radius axis. *)
Theorem estimate_size_last_without_outer_edge
  (x y : list Q) (data : array2) (s c : string) (r p : list Q)
  (polar : array2) (max_ hm : Q) :
  ucp x y data = Ok (r, p, polar) ->
  polar <> [] ->
  Forall (fun row => length row = length r) polar ->
  np_max polar = Ok max_ ->
  threshold (VStr (lower s)) max_ = Ok hm ->
  lower c = "last"%string ->
  Forall (Spec.no_outer_edge hm) polar ->
  estimate_size ucp x y data (VStr s) c =
    Raise (IndexError (Z.of_nat (length r)) (length r)).
Proof.
  intros Hres Hne Hrect Hmax Hhm Hc Hrows.
  exact (last_reads_past_the_end x y data s c r p polar max_ hm
           Hres Hne Hrect Hmax Hhm Hc Hrows).
Qed.

End LastCriterion.

Lemma estimate_size_last_without_outer_edge_witness :
  estimate_size (Examples.resampled Examples.flat_by_angle)
    Examples.axis3 Examples.axis3 Examples.peak3 (VStr "fwhm") "LAST" =
  Raise (IndexError 3 3).
Proof.
  apply (estimate_size_last_without_outer_edge
           (Examples.resampled Examples.flat_by_angle)
           Examples.axis3 Examples.axis3 Examples.peak3 "fwhm" "LAST"
           [0; 1; 2] [0; 1; 2] [[3; 3; 3]; [3; 3; 3]; [3; 3; 3]] 3 (3 / 2)).
  - reflexivity.
  - discriminate.
  - repeat constructor.
  - reflexivity.
  - reflexivity.
  - reflexivity.
  - assert (Hrow : Spec.no_outer_edge (3 / 2) [3; 3; 3])
      by (left; exists [3; 3], 3; split; reflexivity).
    repeat (apply Forall_cons; [exact Hrow |]). apply Forall_nil.
Defined.

(** ** estimate_size on an image without a positive peak *)

Section NonPositivePeak.

Variable ucp : list Q -> list Q -> array2 -> result polar_grid.

Lemma nonpositive_peak_no_crossing (polar : array2) (m : string) (max_ hm : Q) :
  np_max polar = Ok max_ ->
  threshold (VStr m) max_ = Ok hm ->
  max_ <= 0 ->
  forall row v, In row polar -> In v row -> v <= hm.
Proof.
  intros Hmax Hhm Hneg row v Hrow Hv.
  destruct (threshold_fraction m max_ hm Hhm) as (c & Hc & Hc0 & Hc1).
  destruct (np_max_spec polar max_ Hmax) as [_ Hle].
  apply Qle_trans with max_; [apply (Hle row v Hrow Hv) |].
  rewrite Hc. nra.
Qed.

Lemma never_above_argmax (hm : Q) (row : list Q) :
  (forall v, In v row -> v <= hm) ->
  np_argmax (map (fun v => Qgtb v hm) row) = 0%nat.
Proof.
  intros Hall.
  destruct (argmax_first_crossing row hm) as [[(v & Hk & Hv) _] | [Hk _]];
    [| exact Hk].
  exfalso. apply (Qlt_not_le _ _ Hv). apply Hall, (nth_error_In _ _ Hk).
Qed.

(** X10.  When the peak of the polar array is zero or negative (an all-dark
    image, for one) no sample is above the threshold of an enumerated
    metric.  On a well-formed grid criteria 'first' then returns the first
    radius r[0], while criteria 'last' raises IndexError. *)
Theorem estimate_size_without_positive_peak
  (x y : list Q) (data : array2) (s : string) (r p : list Q)
  (polar : array2) (max_ : Q) :
  ucp x y data = Ok (r, p, polar) ->
  polar <> [] ->
  Forall (fun row => length row = length r) polar ->
  (2 <= length r)%nat ->
  Spec.known_metric s = true ->
  np_max polar = Ok max_ ->
  max_ <= 0 ->
  (exists v r_0,
     estimate_size ucp x y data (VStr s) "first" = Ok v /\
     nth_error r 0 = Some r_0 /\ v == r_0) /\
  estimate_size ucp x y data (VStr s) "last" =
    Raise (IndexError (Z.of_nat (length r)) (length r)).
Proof.
  intros Hres Hne Hrect Hlen Hs Hmax Hneg.
  destruct (threshold_known s max_ Hs) as [hm Hhm].
  pose proof (nonpositive_peak_no_crossing polar (lower s) max_ hm Hmax Hhm Hneg)
    as Hdark.
  split.
  - rewrite (estimate_size_steps ucp x y data s "first" r p polar max_ hm
               Hres Hmax Hhm).
    change (lower "first") with "first"%string.
    unfold crossing. simpl String.eqb. cbv iota. cbn [bind fst snd].
    unfold meanidx_first.
    destruct (np_mean_zeros (argmax_axis1 (gt_mask polar hm))) as (m & Hm & Hm0).
    { unfold argmax_axis1, gt_mask. destruct polar; [congruence | discriminate]. }
    { unfold argmax_axis1, gt_mask. rewrite !Forall_map.
      apply Forall_forall. intros row Hrow.
      apply never_above_argmax. intros v Hv. apply (Hdark row v Hrow Hv). }
    rewrite Hm. cbn [divmod1 fst snd].
    destruct (nth_error r 0) as [r_0 |] eqn:H0.
    2:{ apply nth_error_None in H0. lia. }
    destruct (interpolate_whole r 0 r_0 m (m - inject_Z (Qfloor m)) H0 Hlen)
      as (v & Hv & Hvr).
    + rewrite Hm0. reflexivity.
    + assert (Hf : Qfloor m = 0%Z) by (rewrite Hm0; reflexivity).
      rewrite Hf, Hm0. reflexivity.
    + exists v, r_0. repeat split; assumption.
  - apply (last_reads_past_the_end ucp x y data s "last" r p polar max_ hm);
      try assumption; [reflexivity |].
    apply Forall_forall. intros row Hrow. right.
    intros v Hv. apply (Hdark row v Hrow Hv).
Qed.

End NonPositivePeak.

Lemma estimate_size_without_positive_peak_witness :
  (exists v r_0,
     estimate_size (Examples.resampled Examples.dark_by_angle)
       Examples.axis3 Examples.axis3 Examples.dark3 (VStr "fwhm") "first" = Ok v /\
     nth_error [0; 1; 2] 0 = Some r_0 /\ v == r_0) /\
  estimate_size (Examples.resampled Examples.dark_by_angle)
    Examples.axis3 Examples.axis3 Examples.dark3 (VStr "fwhm") "last" =
    Raise (IndexError 3 3).
Proof.
  apply (estimate_size_without_positive_peak
           (Examples.resampled Examples.dark_by_angle)
           Examples.axis3 Examples.axis3 Examples.dark3 "fwhm"
           [0; 1; 2] [0; 1; 2] [[0; 0; 0]; [0; 0; 0]; [0; 0; 0]] 0).
  - reflexivity.
  - discriminate.
  - repeat constructor.
  - simpl. lia.
  - reflexivity.
  - reflexivity.
  - discriminate.
Defined.

(** ** fwhm, one_over_e and one_over_e2 on a profile that is the same at
    every angle *)

Section SizeOrdering.

Variable ucp : list Q -> list Q -> array2 -> result polar_grid.

Lemma last_on_profile
  (x y : list Q) (data : array2) (s c : string) (r p prof : list Q) (n : nat)
  (max_ hm v : Q) :
  ucp x y data = Ok (r, p, repeat prof (S n)) ->
  np_max (repeat prof (S n)) = Ok max_ ->
  threshold (VStr (lower s)) max_ = Ok hm ->
  lower c = "last"%string ->
  estimate_size ucp x y data (VStr s) c = Ok v ->
  exists ri, nth_error r (last_forward_index prof hm) = Some ri /\ v == ri.
Proof.
  intros Hres Hmax Hhm Hc.
  rewrite (estimate_size_steps ucp x y data s c r p _ max_ hm Hres Hmax Hhm), Hc.
  rewrite crossing_last. cbn [bind fst snd]. unfold meanidx_last.
  set (mrow := map (fun v => Qgtb v hm) prof).
  assert (Hmask : gt_mask (repeat prof (S n)) hm = repeat mrow (S n))
    by (unfold gt_mask; apply map_repeat).
  rewrite Hmask. unfold argmax_axis1, flip_axis1. rewrite !map_repeat.
  destruct (np_mean_repeat (np_argmax (rev mrow)) n) as (m & -> & Hm).
  assert (Hcols : snd (shape (repeat mrow (S n))) = length prof)
    by (simpl; apply length_map).
  rewrite Hcols. cbn [fsub divmod1 fst snd fmul].
  assert (Hprof : prof <> []).
  { intros ->. unfold np_max in Hmax.
    assert (E : concat (repeat (@nil Q) (S n)) = []).
    { clear. induction n as [| n IH]; simpl in *; [reflexivity | exact IH]. }
    rewrite E in Hmax. discriminate. }
  assert (Hk : (np_argmax (rev mrow) < length prof)%nat).
  { rewrite <- (length_map (fun v => Qgtb v hm)), <- length_rev.
    apply np_argmax_lt. fold mrow. intro H.
    apply (f_equal (@length bool)) in H. rewrite length_rev in H.
    unfold mrow in H. rewrite length_map in H. destruct prof; [congruence |].
    simpl in H. lia. }
  assert (Hm' : inject_Z (Z.of_nat (length prof)) - m ==
                inject_Z (Z.of_nat (last_forward_index prof hm))).
  { rewrite Hm. unfold Qminus. rewrite <- inject_Z_opp, <- inject_Z_plus.
    unfold last_forward_index. fold mrow.
    replace (Z.of_nat (length prof) + - Z.of_nat (np_argmax (rev mrow)))%Z
      with (Z.of_nat (length prof - np_argmax (rev mrow))) by lia.
    reflexivity. }
  assert (Hf : Qfloor (inject_Z (Z.of_nat (length prof)) - m) =
               Z.of_nat (last_forward_index prof hm))
    by (rewrite Hm'; apply Qfloor_Z).
  unfold interpolate. rewrite py_int_inject_Z, Hf. cbn [bind].
  destruct (nth_error r (last_forward_index prof hm)) as [ri |] eqn:Hi.
  - rewrite (index_in_range r _ ri Hi). cbn [bind].
    destruct (index r 1) as [r_1 |]; cbn [bind]; [| discriminate].
    intros H. injection H as <-. exists ri. split; [reflexivity |].
    rewrite Hm'. ring.
  - apply nth_error_None in Hi. rewrite index_past_end by exact Hi.
    discriminate.
Qed.

(** Lowering the threshold never moves the column read by 'last' inwards,
    as long as the profile exceeds the higher threshold somewhere. *)
Lemma last_index_monotone (prof : list Q) (h h' : Q) :
  h <= h' ->
  (exists v, In v prof /\ h' < v) ->
  (last_forward_index prof h' <= last_forward_index prof h)%nat.
Proof.
  intros Hh (v & Hin & Hv). unfold last_forward_index.
  destruct (argmax_rev_spec prof h') as [(b' & Hb' & Hk') | [_ Hall']].
  2:{ exfalso. apply (Qlt_not_le _ _ Hv), Hall', Hin. }
  destruct (argmax_rev_spec prof h) as [(b & Hb & Hk) | [_ Hall]].
  2:{ exfalso. apply (Qlt_not_le h v); [| apply Hall, Hin].
      apply Qle_lt_trans with h'; assumption. }
  rewrite Hk, Hk'.
  destruct Hb' as [(vb' & Hnb' & Hvb') _]. destruct Hb as [_ Hafter].
  destruct (Nat.le_gt_cases b' b) as [H | H]; [lia |].
  exfalso. apply (Qlt_not_le h vb'); [| apply (Hafter b' vb' H Hnb')].
  apply Qle_lt_trans with h'; assumption.
Qed.

Lemma last_index_never_above (prof : list Q) (h : Q) :
  (forall v, In v prof -> v <= h) -> last_forward_index prof h = length prof.
Proof.
  intros Hall. unfold last_forward_index.
  rewrite (no_outer_edge_argmax h prof) by (right; exact Hall). lia.
Qed.

Lemma sorted_nth_le (r : list Q) (i j : nat) (a b : Q) :
  StronglySorted Qlt r ->
  nth_error r i = Some a -> nth_error r j = Some b -> (i <= j)%nat -> a <= b.
Proof.
  intros Hs Ha Hb Hij.
  destruct (Nat.eq_dec i j) as [-> | Hne].
  - rewrite Ha in Hb. injection Hb as <-. apply Qle_refl.
  - apply Qlt_le_weak. apply (sorted_nth_lt r i j); try assumption. lia.
Qed.

Lemma estimate_size_ok_max
  (x y : list Q) (data : array2) (s c : string) (r p : list Q) (polar : array2)
  (v : Q) :
  ucp x y data = Ok (r, p, polar) ->
  estimate_size ucp x y data (VStr s) c = Ok v ->
  exists max_, np_max polar = Ok max_.
Proof.
  intros Hres. unfold estimate_size. cbn [lower_method bind]. rewrite Hres.
  cbn [bind]. destruct (np_max polar) as [max_ |]; [| discriminate].
  intros _. exists max_. reflexivity.
Qed.

(** X11.  On a polar array whose angle rows are all the same radial profile,
    over strictly ascending radii, the three size functions are ordered for
    criteria 'last': whenever all three return, half the FWHM is at most the
    1/e radius, which is at most the 1/e^2 radius. *)
Theorem sizes_are_ordered_on_a_profile
  (x y : list Q) (data : array2) (c : string) (r p prof : list Q) (n : nat)
  (w u v : Q) :
  ucp x y data = Ok (r, p, repeat prof (S n)) ->
  StronglySorted Qlt r ->
  lower c = "last"%string ->
  fwhm ucp x y data c = Ok w ->
  one_over_e ucp x y data c = Ok u ->
  one_over_e2 ucp x y data c = Ok v ->
  w / 2 <= u /\ u <= v.
Proof.
  intros Hres Hs Hc Hw Hu Hv.
  unfold fwhm in Hw. unfold one_over_e in Hu. unfold one_over_e2 in Hv.
  destruct (estimate_size ucp x y data (VStr "fwhm") c) as [h |] eqn:Hh;
    cbn [bind] in Hw; [| discriminate].
  injection Hw as <-.
  destruct (estimate_size_ok_max x y data "fwhm" c r p _ h Hres Hh) as [max_ Hmax].
  assert (T1 : threshold (VStr (lower "fwhm")) max_ = Ok (max_ / 2)) by reflexivity.
  assert (T2 : threshold (VStr (lower "1/e")) max_ = Ok (1 / np_e * max_))
    by reflexivity.
  assert (T3 : threshold (VStr (lower "1/e^2")) max_ = Ok (1 / np_e ^ 2 * max_))
    by reflexivity.
  destruct (last_on_profile x y data "fwhm" c r p prof n max_ _ h
              Hres Hmax T1 Hc Hh) as (r1 & Hr1 & E1).
  destruct (last_on_profile x y data "1/e" c r p prof n max_ _ u
              Hres Hmax T2 Hc Hu) as (r2 & Hr2 & E2).
  destruct (last_on_profile x y data "1/e^2" c r p prof n max_ _ v
              Hres Hmax T3 Hc Hv) as (r3 & Hr3 & E3).
  assert (Ew : h * 2 / 2 == r1) by (rewrite <- E1; field).
  rewrite Ew, E2, E3.
  destruct (np_max_spec _ max_ Hmax) as [(row & Hrow & Hin) Hle].
  apply repeat_spec in Hrow. subst row.
  assert (Ha : 1 / np_e ^ 2 < 1 / np_e) by reflexivity.
  assert (Hb : 1 / np_e < 1 # 2) by reflexivity.
  assert (Hd : 0 < 1 / np_e ^ 2) by reflexivity.
  assert (Ehalf : max_ / 2 == (1 # 2) * max_) by field.
  destruct (Qlt_le_dec 0 max_) as [Hpos | Hneg].
  - split.
    + apply (sorted_nth_le r _ _ r1 r2 Hs Hr1 Hr2).
      apply last_index_monotone.
      * rewrite Ehalf. nra.
      * exists max_. split; [exact Hin |]. rewrite Ehalf. nra.
    + apply (sorted_nth_le r _ _ r2 r3 Hs Hr2 Hr3).
      apply last_index_monotone.
      * nra.
      * exists max_. split; [exact Hin |]. nra.
  - assert (Hall : forall hm, max_ <= hm -> forall q, In q prof -> q <= hm).
    { intros hm Hhm q Hq. apply Qle_trans with max_; [| exact Hhm].
      apply (Hle prof q); [| exact Hq]. left. reflexivity. }
    rewrite (last_index_never_above prof (max_ / 2)) in Hr1
      by (apply Hall; rewrite Ehalf; nra).
    rewrite (last_index_never_above prof (1 / np_e * max_)) in Hr2
      by (apply Hall; nra).
    rewrite (last_index_never_above prof (1 / np_e ^ 2 * max_)) in Hr3
      by (apply Hall; nra).
    rewrite Hr1 in Hr2. injection Hr2 as <-.
    rewrite Hr1 in Hr3. injection Hr3 as <-.
    split; apply Qle_refl.
Qed.

End SizeOrdering.

Lemma sizes_are_ordered_on_a_profile_witness :
  (4 # 2) / 2 <= 4 # 2 /\ 4 # 2 <= 6 # 2.
Proof.
  apply (sizes_are_ordered_on_a_profile
           (Examples.resampled Examples.steep_by_angle)
           Examples.axis4 Examples.axis4 Examples.peak4 "Last"
           [0; 1; 2; 3; 4] [0; 1] [8; 4; 2; 0; 0] 1 (4 # 2) (4 # 2) (6 # 2)).
  - reflexivity.
  - repeat (constructor; try reflexivity).
  - reflexivity.
  - vm_compute. reflexivity.
  - vm_compute. reflexivity.
  - vm_compute. reflexivity.
Defined.

(** ** encircled_energy: the frequency grid and the zero radius *)

Section EncircledEnergyEdges.

Variable mtf_from_psf : array2 -> Q -> MTF.
Variable np_sqrt : Q -> Q.
Variable j1 : Q -> Q.






End EncircledEnergyEdges.


(** ** airydisk and the analytic encircled energy *)

Section AiryFacts.

Variable jinc : npfloat -> npfloat.
Variable special_j0 : npfloat -> npfloat.
Variable special_j1 : npfloat -> npfloat.

Lemma Qabs_square (q : Q) : Qabs q * Qabs q == q * q.
Proof.
  apply (Qabs_case q (fun a => a * a == q * q)); intros _; ring.
Qed.

Lemma fdivf_twice (a b c : Q) :
  ~ b == 0 -> ~ c == 0 -> fdivf (fdivf (Fin a) b) c = Fin (a / b / c).
Proof.
  intros Hb Hc. unfold fdivf. rewrite (fdiv_nonzero _ _ Hb).
  apply (fdiv_nonzero _ _ Hc).
Qed.


(** X15.  With [jinc] equal to 1/2 at the origin, the Airy pattern of a
    system with nonzero F-number and wavelength is 1 at zero radius. *)
Theorem airydisk_peak_is_one (fno wavelength r : Q) :
  ~ fno == 0 -> ~ wavelength == 0 ->
  (forall q, q == 0 -> exists j, jinc (Fin q) = Fin j /\ j == 1 # 2) ->
  r == 0 ->
  exists v, airydisk jinc [r] fno wavelength = [Fin v] /\ v == 1.
Proof.
  intros Hf Hw Hj Hr. unfold airydisk. cbn [map].
  rewrite (fdivf_twice _ _ _ Hw Hf).
  destruct (Hj (r * np_pi / wavelength / fno)) as (j & -> & Ej).
  { rewrite Hr. field. split; assumption. }
  cbn [fmul fabs fsquare]. eexists. split; [reflexivity |].
  rewrite Qabs_square, Ej. reflexivity.
Qed.

(** X16.  The analytic encircled energy has one value per point and no
    finite value above 1, whatever the Bessel values are: it is 1 minus two
    squares. *)
Theorem analytic_encircled_energy_at_most_one
  (fno wavelength : Q) (points : list Q) :
  length (_analytical_encircled_energy special_j0 special_j1 fno wavelength points)
    = length points /\
  forall i v,
    nth_error
      (_analytical_encircled_energy special_j0 special_j1 fno wavelength points) i
      = Some (Fin v) ->
    v <= 1.
Proof.
  split; [apply length_map |].
  intros i v. unfold _analytical_encircled_energy. rewrite nth_error_map.
  destruct (nth_error points i) as [pt |]; simpl; [| discriminate].
  destruct (special_j0 _) as [a |]; simpl; [| discriminate].
  destruct (special_j1 _) as [b |]; simpl; [| discriminate].
  intros H. injection H as <-. nra.
Qed.

(** X18.  With J0 equal to 1 and J1 equal to 0 at the origin, the analytic
    encircled energy of a system with nonzero F-number and wavelength is 0
    at a zero radius. *)
Theorem analytic_encircled_energy_at_origin (fno wavelength pt : Q) :
  ~ fno == 0 -> ~ wavelength == 0 ->
  (forall q, q == 0 -> exists a, special_j0 (Fin q) = Fin a /\ a == 1) ->
  (forall q, q == 0 -> exists b, special_j1 (Fin q) = Fin b /\ b == 0) ->
  pt == 0 ->
  exists v,
    _analytical_encircled_energy special_j0 special_j1 fno wavelength [pt]
      = [Fin v] /\ v == 0.
Proof.
  intros Hf Hw H0 H1 Hpt. unfold _analytical_encircled_energy. cbn [map].
  assert (Hp : pt * np_pi / fno / wavelength == 0)
    by (rewrite Hpt; field; split; assumption).
  rewrite (fdivf_twice _ _ _ Hf Hw).
  destruct (H0 _ Hp) as (a & -> & Ha). destruct (H1 _ Hp) as (b & -> & Hb).
  cbn [fsquare fmul fsub]. eexists. split; [reflexivity |].
  rewrite Ha, Hb. ring.
Qed.

End AiryFacts.

Lemma analytic_encircled_energy_at_origin_witness :
  exists v,
    _analytical_encircled_energy Examples.j0_leading_term
      Examples.j1_float_leading_term 4 (1 # 2) [0] = [Fin v] /\ v == 0.
Proof.
  apply (analytic_encircled_energy_at_origin Examples.j0_leading_term
           Examples.j1_float_leading_term 4 (1 # 2) 0).
  - discriminate.
  - discriminate.
  - intros q _. exists 1. split; reflexivity.
  - intros q Hq. exists (q / 2). split; [reflexivity |]. rewrite Hq. reflexivity.
  - reflexivity.
Defined.

Lemma airydisk_peak_is_one_witness :
  exists v, airydisk Examples.jinc_leading_term [0] 4 (1 # 2) = [Fin v] /\ v == 1.
Proof.
  apply (airydisk_peak_is_one Examples.jinc_leading_term 4 (1 # 2) 0).
  - discriminate.
  - discriminate.
  - intros q _. exists (1 # 2). split; reflexivity.
  - reflexivity.
Defined.

(** ** centroid: where the spatial origin is *)

Section CentroidOrigin.

Lemma ceil_half_value (c : nat) : ceil_half c = Z.of_nat ((c + 1) / 2).
Proof.
  rewrite Nat2Z.inj_div, Nat2Z.inj_add.
  change (Z.of_nat 1) with 1%Z. change (Z.of_nat 2) with 2%Z.
  unfold ceil_half, Qceiling, Qfloor. simpl.
  rewrite Z.mul_1_r.
  pose proof (Z.div_mod (- Z.of_nat c) 2 ltac:(lia)) as H1.
  pose proof (Z.mod_pos_bound (- Z.of_nat c) 2 ltac:(lia)) as H2.
  pose proof (Z.div_mod (Z.of_nat c + 1) 2 ltac:(lia)) as H3.
  pose proof (Z.mod_pos_bound (Z.of_nat c + 1) 2 ltac:(lia)) as H4.
  lia.
Qed.

(** X17.  The spatial centroid is measured from the sample at index
    ceil(extent/2), that is n/2 for an even extent n and (n+1)/2 for an odd
    one: for a nonzero [dx] a coordinate is 0 exactly when the pixel centroid
    on that axis is that index. *)
Theorem centroid_spatial_origin (data : array2) (dx cy cx : Q) :
  ~ dx == 0 ->
  centroid data None "pixels" = Ok (Fin cy, Fin cx) ->
  exists sy sx,
    centroid data (Some dx) "spatial" = Ok (Fin sy, Fin sx) /\
    (sy == 0 <-> cy == inject_Z (Z.of_nat ((fst (shape data) + 1) / 2))) /\
    (sx == 0 <-> cx == inject_Z (Z.of_nat ((snd (shape data) + 1) / 2))).
Proof.
  intros Hdx. unfold centroid. simpl String.eqb. cbn [negb].
  intros H.
  assert (Hc : center_of_mass data = (Fin cy, Fin cx)) by congruence.
  rewrite Hc. cbn [fst snd fsub fmul].
  rewrite !ceil_half_value.
  eexists; eexists. split; [reflexivity |].
  split; split; intros E.
  - apply Qmult_integral in E as [E | E]; [contradiction |].
    rewrite <- (Qplus_0_l (inject_Z _)), <- E. ring.
  - rewrite E. ring.
  - apply Qmult_integral in E as [E | E]; [contradiction |].
    rewrite <- (Qplus_0_l (inject_Z _)), <- E. ring.
  - rewrite E. ring.
Qed.

End CentroidOrigin.

Lemma centroid_spatial_origin_witness :
  exists sy sx,
    centroid Examples.data5 (Some (1 # 2)) "spatial" = Ok (Fin sy, Fin sx) /\
    (sy == 0 <-> 2 == inject_Z (Z.of_nat ((fst (shape Examples.data5) + 1) / 2))) /\
    (sx == 0 <-> 2 == inject_Z (Z.of_nat ((snd (shape Examples.data5) + 1) / 2))).
Proof.
  apply (centroid_spatial_origin Examples.data5 (1 # 2) 2 2).
  - discriminate.
  - vm_compute. reflexivity.
Defined.
